(** * pulsar.utils.autoreload: change detection and restart supervision

    A shallow embedding of [pulsar/utils/autoreload.py].  Python strings are
    [string]; dictionaries whose iteration order is irrelevant are [gmap];
    the trie of [_find_common_roots], a dictionary of dictionaries that
    Python keeps in insertion order, is an association list; the operating
    system (file system, interpreter state, child processes) is an explicit
    record of oracles passed to every operation. *)

From Stdlib Require Import ZArith QArith Ascii String.
From stdpp Require Import base tactics option list sorting gmap strings.

Set Warnings "-clear-no-such-hyp".

Local Open Scope string_scope.
Local Open Scope list_scope.
Local Open Scope nat_scope.

(** ** Module constants *)

Definition EXIT_CODE : Z := 5%Z.
Definition PULSAR_RUN_MAIN : string := "PULSAR_RUN_MAIN".

(** ** Python string operations used by the module *)

Module Str.

Definition sep : ascii := "/"%char.

(** [s.endswith(suffix)] *)
Fixpoint endswith (s suffix : string) : bool :=
  if String.eqb s suffix then true
  else match s with
       | EmptyString => false
       | String _ r => endswith r suffix
       end.

(** [s.startswith(prefix)] *)
Fixpoint startswith (s prefix : string) {struct prefix} : bool :=
  match prefix, s with
  | EmptyString, _ => true
  | String a p, String b r => Ascii.eqb a b && startswith r p
  | String _ _, EmptyString => false
  end.

(** [s[:-1]] *)
Fixpoint drop_last (s : string) : string :=
  match s with
  | EmptyString => EmptyString
  | String c r =>
      match r with
      | EmptyString => EmptyString
      | String _ _ => String c (drop_last r)
      end
  end.

(** [s[-4:]] *)
Fixpoint last4 (s : string) : string :=
  match s with
  | EmptyString => EmptyString
  | String _ r => if 4 <=? String.length r then last4 r else s
  end.

(** [s.split(sep)] for a one-character separator: never the empty list. *)
Fixpoint split (c : ascii) (s : string) : list string :=
  match s with
  | EmptyString => [EmptyString]
  | String a r =>
      if Ascii.eqb a c then EmptyString :: split c r
      else match split c r with
           | [] => [String a EmptyString]
           | h :: t => String a h :: t
           end
  end.

(** [sep.join(parts)] *)
Fixpoint join (c : ascii) (parts : list string) : string :=
  match parts with
  | [] => EmptyString
  | [p] => p
  | p :: rest => p +:+ String c (join c rest)
  end.

(** [s.rstrip(sep)] for a one-character [sep] *)
Fixpoint rstrip (c : ascii) (s : string) : string :=
  match s with
  | EmptyString => EmptyString
  | String a r =>
      match rstrip c r with
      | EmptyString => if Ascii.eqb a c then EmptyString else String a EmptyString
      | r' => String a r'
      end
  end.

(** [c * n] *)
Fixpoint repeat (c : ascii) (n : nat) : string :=
  match n with
  | O => EmptyString
  | S n' => String c (repeat c n')
  end.

(** [p[:p.rfind(sep) + 1]] *)
Fixpoint upto_last (c : ascii) (p : string) : string :=
  match p with
  | EmptyString => EmptyString
  | String a r =>
      match upto_last c r with
      | EmptyString => if Ascii.eqb a c then String a EmptyString else EmptyString
      | h => String a h
      end
  end.

End Str.

(** ** [posixpath.dirname] (the library function the module calls) *)

Definition dirname (p : string) : string :=
  let head := Str.upto_last Str.sep p in
  if negb (String.eqb head "")
     && negb (String.eqb head (Str.repeat Str.sep (String.length head)))
  then Str.rstrip Str.sep head
  else head.

(** ** The host: interpreter state and operating-system oracles *)

(** An entry of [sys.modules.values()]: [None], or a module whose
    [__file__] attribute is absent/[None] or a string. *)
Inductive py_module :=
| NoModule
| Module (file : option string).

Record Host := {
  os_name : string;
  sys_executable : string;
  sys_argv0 : string;
  sys_argv_rest : list string;
  sys_path : list string;
  sys_modules : list py_module;
  os_environ : gmap string string;
  path_exists : string → bool;
  path_isfile : string → bool;
  path_abspath : string → string;
  (** [os.stat(f).st_mtime]; [None] when [os.stat] raises [OSError] *)
  stat_mtime : string → option Z;
  (** [self._loop.is_closed()] *)
  loop_closed : bool;
  (** whether [watchdog] could be imported ([Observer] is not [None]) *)
  has_watchdog : bool;
  (** whether [observer.schedule(handler, path, recursive=True)] raises
      [OSError] *)
  schedule_fails : string → bool;
}.

(** ** Reloader *)

(** The [interval] argument as the caller wrote it. *)
Inductive interval_arg :=
| Omitted
| PyNone
| Seconds (q : Q).

(** [extra_files] lists the elements of the set [self.extra_files] in its
    iteration order. *)
Record Reloader := {
  extra_files : list string;
  interval : Q;
}.

(** [interval or 1]: Python takes the right operand when the left one is
    falsy, that is [None] or a number equal to zero. *)
Definition or_1 (v : interval_arg) : Q :=
  match v with
  | Omitted | PyNone => 1%Q
  | Seconds q => if Qeq_bool q 0 then 1%Q else q
  end.

(** [Reloader.__init__(extra_files=None, interval=1)] *)
Definition Reloader_init (h : Host) (extra : list string) (arg : interval_arg)
  : Reloader :=
  let interval := match arg with Omitted => Seconds 1 | v => v end in
  {| extra_files := path_abspath h <$> extra;
     interval := or_1 interval |}.

(** How one call of a detector's [run] ends. *)
Inductive outcome :=
| Exit (code : Z)          (* [sys.exit(code)] *)
| Scheduled (delay : Q)    (* [call_later(delay, self.run)] *)
| Idle.                    (* returned, nothing scheduled *)

(** [Reloader.sleep] *)
Definition sleep (h : Host) (r : Reloader) : outcome :=
  if negb (loop_closed h) then Scheduled (interval r) else Idle.

(** [Reloader.log_reload]: the lines logged, and the truth of the result *)
Definition log_reload (h : Host) (filename : string) : list string * bool :=
  if negb (loop_closed h) then ([path_abspath h filename], true)
  else ([], false).

(** ** Restart Supervisor *)

Record spawn := {
  spawn_args : list string;
  spawn_env : gmap string string;
}.

Definition _get_args_for_reloading (h : Host) : list string :=
  let py_script := sys_argv0 h in
  let py_script :=
    if String.eqb (os_name h) "nt"
       && negb (path_exists h py_script)
       && path_exists h (py_script +:+ ".exe")
    then py_script +:+ ".exe" else py_script in
  [sys_executable h] ++ [py_script] ++ sys_argv_rest h.

Definition spawn_child (h : Host) : spawn :=
  {| spawn_args := _get_args_for_reloading h;
     spawn_env := <[PULSAR_RUN_MAIN := "true"]> (os_environ h) |}.

(** [Reloader.restart_with_reloader].  [children] lists the exit codes of
    the successive children, in spawn order; once it is exhausted the next
    child never exits and [subprocess.call] blocks for ever, so there is no
    result.  The first component is the sequence of spawns performed. *)
Fixpoint restart_with_reloader (h : Host) (children : list Z)
  : list spawn * option Z :=
  match children with
  | [] => ([spawn_child h], None)
  | exit_code :: later =>
      if negb (exit_code =? EXIT_CODE)%Z then
        ([spawn_child h], Some exit_code)
      else
        let '(spawns, result) := restart_with_reloader h later in
        (spawn_child h :: spawns, result)
  end.

(** ** Common-Root Reducer *)

(** The trie: a dictionary from chunk to child dictionary, in insertion
    order. *)
Local Unset Elimination Schemes.
Inductive node := Node (items : list (string * node)).
Local Set Elimination Schemes.

Definition items (n : node) : list (string * node) :=
  match n with Node its => its end.

(** [node[chunk]], for the first (only) entry with that key *)
Fixpoint get (its : list (string * node)) (chunk : string) : option node :=
  match its with
  | [] => None
  | (k, child) :: rest => if String.eqb k chunk then Some child else get rest chunk
  end.

(** [node.setdefault(chunk, {})], after which the rest of the insertion
    [k] runs on the returned child: the child is updated in place, or
    appended as a new last entry. *)
Fixpoint setdefault (chunk : string) (k : node → node)
    (its : list (string * node)) : list (string * node) :=
  match its with
  | [] => [(chunk, k (Node []))]
  | (key, child) :: rest =>
      if String.eqb key chunk then (key, k child) :: rest
      else (key, child) :: setdefault chunk k rest
  end.

(** The body of the outer loop: walk down [chunks] from [n], creating
    nodes as needed, and [clear()] the node reached. *)
Fixpoint insert_chunks (chunks : list string) (n : node) : node :=
  match chunks with
  | [] => Node []
  | chunk :: rest => Node (setdefault chunk (insert_chunks rest) (items n))
  end.

(** [sorted(paths, key=len, reverse=True)]: a stable sort by decreasing
    number of chunks. *)
Fixpoint insert_by_len (x : list string) (l : list (list string))
  : list (list string) :=
  match l with
  | [] => [x]
  | y :: l' =>
      if length y <=? length x then x :: y :: l' else y :: insert_by_len x l'
  end.

Definition sorted_by_len_desc (l : list (list string)) : list (list string) :=
  foldr insert_by_len [] l.

(** [_walk(node, path)]; the result lists what is added to [rv]. *)
Fixpoint _walk (n : node) (path : list string) : list string :=
  match n with
  | Node its =>
      (fix children (its : list (string * node)) : list string :=
         match its with
         | [] => []
         | (prefix, child) :: rest =>
             _walk child (path ++ [prefix]) ++ children rest
         end) its
      ++ (if bool_decide (its = []) then [Str.join "/" path] else [])
  end.

(** The insertion loop of [_find_common_roots] over the sorted chunk
    sequences [L], from the empty [root]. *)
Definition build (L : list (list string)) : node :=
  foldl (λ root chunks, insert_chunks chunks root) (Node []) L.

(** [_find_common_roots(paths)] on a POSIX host ([os.path.sep] is "/").
    The argument lists the input set in its iteration order; the result
    lists the elements of the returned set. *)
Definition _find_common_roots (paths : list string) : list string :=
  let paths := Str.split Str.sep <$> paths in
  let root := build (sorted_by_len_desc paths) in
  _walk root [].

(** [l] is the chunk sequence of a node of [n] without children. *)
Fixpoint is_leaf (l : list string) (n : node) : Prop :=
  match l with
  | [] => items n = []
  | k :: l' =>
      match get (items n) k with
      | Some child => is_leaf l' child
      | None => False
      end
  end.

(** Keys are unique in every dictionary of the trie. *)
Local Unset Elimination Schemes.
Inductive wf : node → Prop :=
| wf_Node its :
    NoDup its.*1 → Forall (λ kc, wf kc.2) its → wf (Node its).
Local Set Elimination Schemes.

(** The chunk sequence of a path, as [_find_common_roots] splits it. *)
Definition chunks (path : string) : list string := Str.split Str.sep path.

(** [d] covers [p]: the chunk sequence of [d] is a prefix of that of [p]. *)
Definition covers (d p : string) : Prop := chunks d `prefix_of` chunks p.

(** [p] is nested under [a]: [a] covers [p] and is another path. *)
Definition nested_under (a p : string) : Prop := covers a p ∧ a ≠ p.

(** [p] has an ancestor among [paths]. *)
Definition nested_in (paths : list string) (p : string) : Prop :=
  ∃ a, a ∈ paths ∧ nested_under a p.

(** No path of the set is nested under another one. *)
Definition pairwise_disjoint (paths : list string) : Prop :=
  ∀ a p, a ∈ paths → p ∈ paths → ¬ nested_under a p.

Global Instance covers_dec d p : Decision (covers d p).
Proof. unfold covers. apply _. Defined.

Global Instance nested_under_dec a p : Decision (nested_under a p).
Proof. unfold nested_under. apply _. Defined.

Global Instance nested_in_dec paths p : Decision (nested_in paths p).
Proof.
  unfold nested_in.
  destruct (decide (Exists (λ a, nested_under a p) paths)) as [Hex|Hnex].
  - left. by apply Exists_exists in Hex.
  - right. intros ?. apply Hnex. by apply Exists_exists.
Defined.

Global Instance pairwise_disjoint_dec paths : Decision (pairwise_disjoint paths).
Proof.
  unfold pairwise_disjoint.
  destruct (decide (Forall (λ a, Forall (λ p, ¬ nested_under a p) paths) paths))
    as [Hall|Hnall].
  - left. intros a p Ha Hp.
    rewrite Forall_forall in Hall. specialize (Hall a Ha).
    rewrite Forall_forall in Hall. by apply Hall.
  - right. intros Hdisj. apply Hnall.
    apply Forall_forall. intros a Ha. apply Forall_forall. intros p Hp.
    by apply Hdisj.
Defined.

(** [p.startswith(a + "/")]: the path [p] lies below the directory whose
    name is [a], for a name written without a trailing separator, as
    that of every normalised directory other than the root is. *)
Definition below (a p : string) : Prop :=
  Str.startswith p (a +:+ "/") = true.


(** The order [sorted(paths, key=len, reverse=True)] establishes. *)
Definition longer_first (a b : list string) : Prop := length b ≤ length a.

(** ** Path-Set Builder *)

Inductive ascent :=
| Found (filename : string)
| Dropped
| Unfinished.

(** The [while not os.path.isfile(filename)] loop of [_iter_module_files]:
    [Found] when the loop ends normally (its [else] branch runs),
    [Dropped] on [break], [Unfinished] when [fuel] iterations were not
    enough; one more than the length of the name always is
    ([ascend_finishes]). *)
Fixpoint ascend (h : Host) (fuel : nat) (filename : string) : ascent :=
  if path_isfile h filename then Found filename
  else match fuel with
       | O => Unfinished
       | S fuel' =>
           let old := filename in
           let filename := dirname filename in
           if String.eqb filename old then Dropped
           else ascend h fuel' filename
       end.

(** What one entry of [sys.modules] makes [_iter_module_files] yield. *)
Definition module_files (h : Host) (m : py_module) : list string :=
  match m with
  | NoModule => []
  | Module None => []
  | Module (Some filename) =>
      if String.eqb filename "" then []
      else match ascend h (S (String.length filename)) filename with
           | Found filename =>
               let filename :=
                 if bool_decide (Str.last4 filename ∈ [".pyc"; ".pyo"])
                 then Str.drop_last filename else filename in
               [filename]
           | _ => []
           end
  end.

(** [_iter_module_files()]: the sequence of yielded file names *)
Definition _iter_module_files (h : Host) : list string :=
  flat_map (module_files h) (sys_modules h).

(** [_find_observable_paths(extra_files)]; [rv] is listed with
    repetitions, which the reducer absorbs. *)
Definition _find_observable_paths (h : Host) (extra : list string) : list string :=
  let rv := path_abspath h <$> sys_path h in
  let rv := rv ++ ((λ filename, dirname (path_abspath h filename)) <$> extra) in
  let rv :=
    rv ++ flat_map (λ m, match m with
                         | Module (Some fn) => [dirname (path_abspath h fn)]
                         | _ => []
                         end) (sys_modules h) in
  _find_common_roots rv.

(** ** Poll Detector *)

(** The [for] loop of [StatReloader.run] over [files]: the file names
    passed to [os.stat], the timestamp table afterwards, and the argument
    of [trigger_reload] if the loop was left through it. *)
Fixpoint scan (h : Host) (files : list string) (mtimes : gmap string Z)
  : list string * gmap string Z * option string :=
  match files with
  | [] => ([], mtimes, None)
  | filename :: rest =>
      let continue mtimes :=
        let '(seen, mtimes, hit) := scan h rest mtimes in
        (filename :: seen, mtimes, hit) in
      match stat_mtime h filename with
      | None => continue mtimes
      | Some mtime =>
          match mtimes !! filename with
          | None => continue (<[filename := mtime]> mtimes)
          | Some old_time =>
              if (old_time <? mtime)%Z
              then ([filename], mtimes, Some filename)
              else continue mtimes
          end
      end
  end.

(** A path makes the scan stop: it has a baseline and its modification
    time is strictly greater. *)
Definition changed (h : Host) (m : gmap string Z) (f : string) : Prop :=
  ∃ old_time mtime,
    m !! f = Some old_time ∧ stat_mtime h f = Some mtime
    ∧ (old_time < mtime)%Z.

Global Instance changed_dec h m f : Decision (changed h m f).
Proof.
  unfold changed.
  destruct (m !! f) as [old_time|]; [|right; by intros (? & ? & ? & _)].
  destruct (stat_mtime h f) as [mtime|]; [|right; by intros (? & ? & _ & ? & _)].
  destruct (decide (old_time < mtime)%Z) as [Hlt|Hge].
  - left. by exists old_time, mtime.
  - right. intros (? & ? & [= <-] & [= <-] & ?). done.
Defined.

(** The table after the loop body ran on a path that did not stop the
    scan. *)
Definition observe (h : Host) (m : gmap string Z) (f : string)
  : gmap string Z :=
  match stat_mtime h f, m !! f with
  | Some mtime, None => <[f := mtime]> m
  | _, _ => m
  end.

Record stat_tick := {
  st_seen : list string;
  st_mtimes : gmap string Z;
  st_trigger : option string;
  st_logged : list string;
  st_outcome : outcome;
}.

(** [StatReloader.run] *)
Definition StatReloader_run (h : Host) (r : Reloader) (mtimes : gmap string Z)
  : stat_tick :=
  let '(seen, mtimes, hit) :=
    scan h (_iter_module_files h ++ extra_files r) mtimes in
  match hit with
  | Some filename =>
      let '(logged, ok) := log_reload h filename in
      {| st_seen := seen; st_mtimes := mtimes; st_trigger := hit;
         st_logged := logged;
         st_outcome := if ok then Exit EXIT_CODE else Idle |}
  | None =>
      {| st_seen := seen; st_mtimes := mtimes; st_trigger := None;
         st_logged := []; st_outcome := sleep h r |}
  end.

(** ** Event Detector *)

Inductive watch := ObservedWatch (path : string) (recursive : bool).

Inductive observer_call :=
| Schedule (path : string)
| Unschedule (w : watch).

Record Watchdog := {
  observable_paths : list string;
  watches : gmap string (option watch);
  should_reload : bool;
}.

(** [WatchdogReloader.__init__] *)
Definition Watchdog_init : Watchdog :=
  {| observable_paths := []; watches := ∅; should_reload := false |}.

(** What the [try] statement of [WatchdogReloader.run] stores for [path]:
    the watch [observer.schedule] returned, or [None] when it raised. *)
Definition schedule_result (h : Host) (path : string) : option watch :=
  if schedule_fails h path then None else Some (ObservedWatch path true).

(** The first [for] loop of [WatchdogReloader.run]. *)
Fixpoint register (h : Host) (paths : list string)
    (watches : gmap string (option watch)) (to_delete : gset string)
  : list observer_call * gmap string (option watch) * gset string :=
  match paths with
  | [] => ([], watches, to_delete)
  | path :: rest =>
      let '(calls, watches) :=
        if bool_decide (watches !! path = None) then
          ([Schedule path], <[path := schedule_result h path]> watches)
        else ([], watches) in
      let '(calls', watches, to_delete) :=
        register h rest watches (to_delete ∖ {[path]}) in
      (calls ++ calls', watches, to_delete)
  end.

(** The second [for] loop of [WatchdogReloader.run]. *)
Fixpoint unregister (to_delete : list string)
    (watches : gmap string (option watch))
  : list observer_call * gmap string (option watch) :=
  match to_delete with
  | [] => ([], watches)
  | path :: rest =>
      let watch := default None (watches !! path) in
      let watches := delete path watches in
      let calls := match watch with Some w => [Unschedule w] | None => [] end in
      let '(calls', watches) := unregister rest watches in
      (calls ++ calls', watches)
  end.

(** [WatchdogReloader.run], given the desired roots [paths] in the order
    the loop visits them. *)
Definition Watchdog_run_on (h : Host) (r : Reloader) (w : Watchdog)
    (paths : list string) : list observer_call * Watchdog * outcome :=
  if should_reload w then ([], w, Exit EXIT_CODE)
  else if loop_closed h then ([], w, Idle)
  else
    let to_delete := dom (watches w) in
    let '(calls, watches, to_delete) := register h paths (watches w) to_delete in
    let '(calls', watches) := unregister (elements to_delete) watches in
    (calls ++ calls',
     {| observable_paths := paths; watches := watches;
        should_reload := should_reload w |},
     sleep h r).

Definition Watchdog_run (h : Host) (r : Reloader) (w : Watchdog)
  : list observer_call * Watchdog * outcome :=
  Watchdog_run_on h r w (_find_observable_paths h (extra_files r)).

(** [dirname.startswith(tuple(self.observable_paths))] *)
Definition startswith_any (s : string) (prefixes : list string) : bool :=
  existsb (Str.startswith s) prefixes.

(** The arguments of the [trigger_reload] calls that
    [WatchdogReloader.check_modification(filename)] makes, in order. *)
Definition reload_requests (r : Reloader) (w : Watchdog) (filename : string)
  : list string :=
  (if bool_decide (filename ∈ extra_files r) then [filename] else [])
  ++ (let dirname := dirname filename in
      if startswith_any dirname (observable_paths w) then
        if Str.endswith filename ".pyc" || Str.endswith filename ".pyo"
        then [Str.drop_last filename]
        else if Str.endswith filename ".py" then [filename]
        else []
      else []).

(** [self.should_reload = True] *)
Definition set_should_reload (w : Watchdog) : Watchdog :=
  {| observable_paths := observable_paths w; watches := watches w;
     should_reload := true |}.

(** [WatchdogReloader.trigger_reload] *)
Definition Watchdog_trigger_reload (h : Host) (w : Watchdog) (filename : string)
  : list string * Watchdog :=
  let '(logged, ok) := log_reload h filename in
  (logged, if ok then set_should_reload w else w).

(** [WatchdogReloader.check_modification]: the lines logged and the
    detector afterwards. *)
Definition check_modification (h : Host) (r : Reloader) (w : Watchdog)
    (filename : string) : list string * Watchdog :=
  foldl (λ '(logged, w) f,
           let '(logged', w) := Watchdog_trigger_reload h w f in
           (logged ++ logged', w))
        ([], w) (reload_requests r w filename).

(** The life of one Event Detector: before each tick the notification
    thread may have reported some paths; the tick then runs on the host
    as it is at that time, for the roots desired at that time. *)
Record tick := {
  tick_host : Host;
  tick_notified : list string;
  tick_paths : list string;
}.

Definition notify (h : Host) (r : Reloader) (w : Watchdog)
    (notified : list string) : Watchdog :=
  foldl (λ w filename, (check_modification h r w filename).2) w notified.

Fixpoint run_ticks (r : Reloader) (w : Watchdog) (ticks : list tick)
  : list observer_call * Watchdog :=
  match ticks with
  | [] => ([], w)
  | t :: later =>
      let w := notify (tick_host t) r w (tick_notified t) in
      let '(calls, w, _) := Watchdog_run_on (tick_host t) r w (tick_paths t) in
      let '(calls', w) := run_ticks r w later in
      (calls ++ calls', w)
  end.

(** ** Entry point *)

Inductive reloader_class := StatReloader | WatchdogReloader.

(** The module-level [reloaders] dictionary after import. *)
Definition reloaders (h : Host) : gmap string reloader_class :=
  let reloaders : gmap string reloader_class := {[ "stat" := StatReloader ]} in
  if has_watchdog h then
    let reloaders := <["watchdog" := WatchdogReloader]> reloaders in
    <["auto" := default WatchdogReloader (reloaders !! "watchdog")]> reloaders
  else
    <["auto" := default StatReloader (reloaders !! "stat")]> reloaders.

Inductive start_result :=
| KeyError (key : string)
| ChildRan (o : outcome)
| SysExit (code : option Z).

Record start_trace := {
  constructed : list reloader_class;
  spawned : list spawn;
}.

(** [start(reloader_type, interval=None)], without the asynchronous
    [KeyboardInterrupt]; [children] are the exit codes of the children
    spawned, as for [restart_with_reloader]. *)
Definition start (h : Host) (children : list Z) (reloader_type : string)
    (arg : interval_arg) : start_trace * start_result :=
  match reloaders h !! reloader_type with
  | None => ({| constructed := []; spawned := [] |}, KeyError reloader_type)
  | Some cls =>
      let interval := match arg with Omitted => PyNone | v => v end in
      let reloader := Reloader_init h [] interval in
      if bool_decide (os_environ h !! PULSAR_RUN_MAIN = Some "true") then
        let o :=
          match cls with
          | StatReloader => st_outcome (StatReloader_run h reloader ∅)
          | WatchdogReloader => (Watchdog_run h reloader Watchdog_init).2
          end in
        ({| constructed := [cls]; spawned := [] |}, ChildRan o)
      else
        let '(spawns, code) := restart_with_reloader h children in
        ({| constructed := [cls]; spawned := spawns |}, SysExit code)
  end.


(** ** The event handler *)

(** A file-system event as [watchdog] delivers it to [CustomHandler]. *)
Inductive fs_event :=
| Created (src_path : string)
| Modified (src_path : string)
| Moved (src_path dest_path : string)
| Deleted (src_path : string).

(** [CustomHandler.on_created], [on_modified], [on_moved] and
    [on_deleted], by the kind of event: the lines logged and the detector
    afterwards. *)
Definition dispatch (h : Host) (r : Reloader) (w : Watchdog) (e : fs_event)
  : list string * Watchdog :=
  match e with
  | Created src | Modified src | Deleted src => check_modification h r w src
  | Moved src dest =>
      let '(logged, w) := check_modification h r w src in
      let '(logged', w) := check_modification h r w dest in
      (logged ++ logged', w)
  end.

(** The paths an event makes the handler check, in order. *)
Definition event_paths (e : fs_event) : list string :=
  match e with
  | Created src | Modified src | Deleted src => [src]
  | Moved src dest => [src; dest]
  end.

(** [n] applications of [os.path.dirname]. *)
Definition ancestor (n : nat) (filename : string) : string :=
  Nat.iter n dirname filename.

(** ** A concrete host, for the examples *)

Definition demo_host : Host := {|
  os_name := "posix";
  sys_executable := "/usr/bin/python3";
  sys_argv0 := "manage.py";
  sys_argv_rest := ["--reload"];
  sys_path := ["/srv/app"; "/usr/lib/python3"];
  sys_modules :=
    [Module (Some "/srv/app/main.py"); Module (Some "/srv/app/util.pyc");
     NoModule; Module None; Module (Some "/srv/app/util.py")];
  os_environ := ∅;
  path_exists := λ _, true;
  path_isfile := λ f,
    bool_decide (f ∈ ["/srv/app/main.py"; "/srv/app/util.py";
                      "/srv/app/util.pyc"]);
  path_abspath := λ f, f;
  stat_mtime := λ f,
    if bool_decide (f = "/srv/app/main.py") then Some 200%Z
    else if bool_decide (f = "/srv/app/util.py") then Some 100%Z
    else None;
  loop_closed := false;
  has_watchdog := true;
  schedule_fails := λ path, bool_decide (path = "/usr/lib/python3");
|}.

(** The same host once its loop has been closed. *)
Definition closed_host : Host := {|
  os_name := os_name demo_host;
  sys_executable := sys_executable demo_host;
  sys_argv0 := sys_argv0 demo_host;
  sys_argv_rest := sys_argv_rest demo_host;
  sys_path := sys_path demo_host;
  sys_modules := sys_modules demo_host;
  os_environ := os_environ demo_host;
  path_exists := path_exists demo_host;
  path_isfile := path_isfile demo_host;
  path_abspath := path_abspath demo_host;
  stat_mtime := stat_mtime demo_host;
  loop_closed := true;
  has_watchdog := has_watchdog demo_host;
  schedule_fails := schedule_fails demo_host;
|}.

(** The same host without the [watchdog] package. *)
Definition bare_host : Host := {|
  os_name := os_name demo_host;
  sys_executable := sys_executable demo_host;
  sys_argv0 := sys_argv0 demo_host;
  sys_argv_rest := sys_argv_rest demo_host;
  sys_path := sys_path demo_host;
  sys_modules := sys_modules demo_host;
  os_environ := os_environ demo_host;
  path_exists := path_exists demo_host;
  path_isfile := path_isfile demo_host;
  path_abspath := path_abspath demo_host;
  stat_mtime := stat_mtime demo_host;
  loop_closed := loop_closed demo_host;
  has_watchdog := false;
  schedule_fails := schedule_fails demo_host;
|}.

(** The same host as seen by the supervised child: the marker is set. *)
Definition child_host : Host := {|
  os_name := os_name demo_host;
  sys_executable := sys_executable demo_host;
  sys_argv0 := sys_argv0 demo_host;
  sys_argv_rest := sys_argv_rest demo_host;
  sys_path := sys_path demo_host;
  sys_modules := sys_modules demo_host;
  os_environ := {[ PULSAR_RUN_MAIN := "true" ]};
  path_exists := path_exists demo_host;
  path_isfile := path_isfile demo_host;
  path_abspath := path_abspath demo_host;
  stat_mtime := stat_mtime demo_host;
  loop_closed := loop_closed demo_host;
  has_watchdog := has_watchdog demo_host;
  schedule_fails := schedule_fails demo_host;
|}.

(** * Properties *)

(** ** Restart Supervisor *)

Lemma restart_with_reloader_sentinels h n c later :
  c ≠ EXIT_CODE →
  restart_with_reloader h (replicate n EXIT_CODE ++ c :: later)
  = (replicate (S n) (spawn_child h), Some c).
Proof.
  intros Hc. induction n as [|n IH]; cbn [replicate app restart_with_reloader].
  - by destruct (Z.eqb_spec c EXIT_CODE).
  - rewrite Z.eqb_refl. cbn [negb]. by rewrite IH.
Qed.

(** C1: given any child exit codes that are [n] sentinels (5) followed by a
    code [c] other than 5, the supervisor spawns exactly [n + 1] children,
    each with the marker variable set to "true", and returns [c]. *)
Theorem C1_restart_until_non_sentinel (h : Host) (n : nat) (c : Z) (later : list Z) :
  c ≠ 5%Z →
  let '(spawns, result) :=
    restart_with_reloader h (replicate n 5%Z ++ c :: later) in
  length spawns = n + 1
  ∧ result = Some c
  ∧ Forall (λ s, spawn_env s !! PULSAR_RUN_MAIN = Some "true") spawns.
Proof.
  intros Hc.
  change 5%Z with EXIT_CODE in *.
  rewrite restart_with_reloader_sentinels by done.
  split_and!.
  - rewrite length_replicate. lia.
  - done.
  - apply Forall_replicate. simpl. apply lookup_insert_eq.
Qed.

Lemma C1_restart_until_non_sentinel_witness :
  0%Z ≠ 5%Z
  ∧ let '(spawns, result) :=
      restart_with_reloader demo_host [5%Z; 5%Z; 5%Z; 0%Z] in
    length spawns = 4
    ∧ result = Some 0%Z
    ∧ Forall (λ s, spawn_env s !! PULSAR_RUN_MAIN = Some "true") spawns.
Proof.
  split; [done|].
  apply (C1_restart_until_non_sentinel demo_host 3 0%Z []). done.
Defined.

(** The supervisor returns at once a first exit code other than the
    sentinel. *)
Example restart_first_exit_1 :
  restart_with_reloader demo_host [1%Z] = ([spawn_child demo_host], Some 1%Z).
Proof. reflexivity. Qed.

(** ** Strings *)

Section strings.

Lemma split_not_nil c s : Str.split c s ≠ [].
Proof.
  destruct s as [|a r]; simpl; [done|].
  destruct (Ascii.eqb a c); [done|]. by destruct (Str.split c r).
Qed.

Lemma join_cons c p parts :
  parts ≠ [] → Str.join c (p :: parts) = p +:+ String c (Str.join c parts).
Proof. by destruct parts. Qed.

(** Joining what [split] produced gives the string back. *)
Lemma join_split c s : Str.join c (Str.split c s) = s.
Proof.
  induction s as [|a r IH]; [done|].
  pose proof (split_not_nil c r) as Hnil.
  cbn [Str.split]. destruct (Ascii.eqb_spec a c) as [->|Hne].
  - rewrite join_cons by done. by rewrite IH.
  - destruct (Str.split c r) as [|h t]; [done|].
    destruct t as [|h' t]; [by rewrite <- IH|].
    rewrite join_cons in * by done. by rewrite <- IH.
Qed.

Lemma split_inj c s1 s2 : Str.split c s1 = Str.split c s2 → s1 = s2.
Proof.
  intros Heq. by rewrite <- (join_split c s1), Heq, join_split.
Qed.

Lemma endswith_app s suffix :
  Str.endswith s suffix = true ↔ ∃ stem, s = stem +:+ suffix.
Proof.
  split.
  - induction s as [|a r IH]; cbn [Str.endswith].
    + destruct (String.eqb_spec "" suffix) as [<-|]; [|done].
      by exists "".
    + destruct (String.eqb_spec (String a r) suffix) as [<-|].
      * by exists "".
      * intros [stem ->]%IH. by exists (String a stem).
  - intros [stem ->]. induction stem as [|a stem IH].
    + change ("" +:+ suffix) with suffix.
      destruct suffix; cbn [Str.endswith]; by rewrite String.eqb_refl.
    + change (String a stem +:+ suffix) with (String a (stem +:+ suffix)).
      cbn [Str.endswith]. rewrite IH. by destruct (String.eqb _ _).
Qed.

Lemma drop_last_snoc s c : Str.drop_last (s +:+ String c "") = s.
Proof.
  induction s as [|a r IH]; [done|].
  simpl in *. rewrite IH. by destruct r.
Qed.

Lemma startswith_app s prefix :
  Str.startswith s prefix = true ↔ ∃ rest, s = prefix +:+ rest.
Proof.
  revert s. induction prefix as [|a p IH]; intros s; simpl.
  - split; [intros _; by exists s|done].
  - destruct s as [|b r].
    + split; [done|by intros [? ?]].
    + rewrite andb_true_iff, IH. split.
      * intros [->%Ascii.eqb_eq [rest ->]]. by exists rest.
      * intros [rest [= -> ->]]. rewrite Ascii.eqb_refl. eauto.
Qed.

End strings.

(** ** Common-Root Reducer: the trie *)

Lemma node_ind (P : node → Prop) :
  (∀ its, Forall (λ kc, P kc.2) its → P (Node its)) → ∀ n, P n.
Proof.
  intros step. fix IH 1. intros [its]. apply step.
  induction its as [|[k child] its IHits]; constructor; [apply IH|apply IHits].
Qed.

Section trie.
Implicit Types (its : list (string * node)) (n child : node).
Implicit Types (l p q : list string) (chunk key : string).

Lemma get_setdefault chunk (k : node → node) its key :
  get (setdefault chunk k its) key
  = if decide (key = chunk)
    then Some (k (default (Node []) (get its chunk)))
    else get its key.
Proof.
  induction its as [|[key' child] its IH]; simpl.
  - destruct (String.eqb_spec chunk key); case_decide; naive_solver.
  - destruct (String.eqb_spec key' chunk) as [->|Hne]; simpl.
    + rewrite ?String.eqb_refl.
      destruct (String.eqb_spec chunk key); case_decide; naive_solver.
    + rewrite IH.
      destruct (String.eqb_spec key' key) as [->|]; [|done].
      by rewrite decide_False.
Qed.

Lemma setdefault_not_nil chunk (k : node → node) its :
  setdefault chunk k its ≠ [].
Proof.
  destruct its as [|[key child] its]; simpl; [done|].
  by destruct (String.eqb key chunk).
Qed.

Lemma elem_of_setdefault_keys chunk (k : node → node) its key :
  key ∈ (setdefault chunk k its).*1 ↔ key = chunk ∨ key ∈ its.*1.
Proof.
  induction its as [|[key' child] its IH]; simpl.
  - set_solver.
  - destruct (String.eqb_spec key' chunk) as [->|Hne]; simpl.
    + set_solver.
    + rewrite !elem_of_cons, IH. naive_solver.
Qed.

Lemma NoDup_setdefault chunk (k : node → node) its :
  NoDup its.*1 → NoDup (setdefault chunk k its).*1.
Proof.
  induction its as [|[key child] its IH]; simpl.
  - intros _. apply NoDup_singleton.
  - rewrite NoDup_cons. intros [Hnotin Hnodup].
    destruct (String.eqb_spec key chunk) as [->|Hne]; simpl.
    + by apply NoDup_cons.
    + apply NoDup_cons. split; [|by apply IH].
      rewrite elem_of_setdefault_keys. naive_solver.
Qed.

Lemma Forall_setdefault (P : node → Prop) chunk (k : node → node) its :
  (∀ child, P child → P (k child)) → P (k (Node [])) →
  Forall (λ kc, P kc.2) its →
  Forall (λ kc, P kc.2) (setdefault chunk k its).
Proof.
  intros Hk Hnew. induction 1 as [|[key child] its Hchild Hrest IH]; simpl.
  - by constructor.
  - destruct (String.eqb key chunk); constructor; simpl in *; auto.
Qed.

Lemma wf_empty : wf (Node []).
Proof. constructor; [apply NoDup_nil_2|constructor]. Qed.

Lemma wf_insert_chunks p n : wf n → wf (insert_chunks p n).
Proof.
  revert n. induction p as [|chunk rest IH]; intros n Hwf; simpl.
  - apply wf_empty.
  - destruct Hwf as [its Hnodup Hchildren]. simpl. constructor.
    + by apply NoDup_setdefault.
    + apply (Forall_setdefault wf); auto using wf_empty.
Qed.

Lemma is_leaf_empty l : is_leaf l (Node []) ↔ l = [].
Proof. destruct l; naive_solver. Qed.

(** Inserting [p] makes [p] a leaf and removes exactly the leaves that
    are comparable with [p]. *)
Lemma is_leaf_insert_chunks p n l :
  is_leaf l (insert_chunks p n)
  ↔ l = p ∨ (is_leaf l n ∧ ¬ p `prefix_of` l ∧ ¬ l `prefix_of` p).
Proof.
  revert n l. induction p as [|chunk rest IH]; intros n l.
  - cbn [insert_chunks]. rewrite is_leaf_empty.
    split; [by left|]. intros [?|(_ & Hnil & _)]; [done|].
    destruct Hnil. apply prefix_nil.
  - destruct l as [|k l'].
    + cbn [insert_chunks is_leaf items]. split.
      * intros ?. by destruct (setdefault_not_nil chunk (insert_chunks rest) (items n)).
      * intros [?|(_ & _ & Hnil)]; [done|]. destruct Hnil. apply prefix_nil.
    + cbn [insert_chunks is_leaf items]. rewrite get_setdefault.
      case_decide as Hk.
      * subst k. rewrite IH.
        destruct (get (items n) chunk) as [child|]; simpl.
        -- split.
           ++ intros [->|(? & Hn1 & Hn2)]; [by left|right].
              split_and!; [done|..]; intros ?%prefix_cons_inv_2; auto.
           ++ intros [[= ->]|(? & Hn1 & Hn2)]; [by left|right].
              split_and!; [done|..]; intros ?; [apply Hn1|apply Hn2];
                by apply prefix_cons.
        -- rewrite is_leaf_empty. split.
           ++ intros [->|(-> & _ & Hnil)]; [by left|].
              destruct Hnil. apply prefix_nil.
           ++ intros [[= ->]|[[] _]]. by left.
      * split.
        -- intros Hleaf. right. split_and!; [done|..];
             intros ?%prefix_cons_inv_1; congruence.
        -- intros [[= ? ?]|(? & _)]; [done|done].
Qed.

Lemma get_Some_elem_of its key child :
  get its key = Some child → (key, child) ∈ its.
Proof.
  induction its as [|[key' child'] its IH]; simpl; [done|].
  destruct (String.eqb_spec key' key) as [->|Hne].
  - intros [= ->]. left.
  - intros ?. right. auto.
Qed.

Lemma elem_of_get its key child :
  NoDup its.*1 → (key, child) ∈ its → get its key = Some child.
Proof.
  induction its as [|[key' child'] its IH]; simpl.
  - by intros _ ?%elem_of_nil.
  - rewrite NoDup_cons. intros [Hnotin Hnodup] Hin.
    apply elem_of_cons in Hin as [[= -> ->]|Hin].
    + by rewrite String.eqb_refl.
    + destruct (String.eqb_spec key' key) as [->|Hne]; [|auto].
      destruct Hnotin. apply list_elem_of_fmap. by exists (key, child).
Qed.

Lemma _walk_unfold its path :
  _walk (Node its) path
  = flat_map (λ kc, _walk kc.2 (path ++ [kc.1])) its
    ++ (if bool_decide (its = []) then [Str.join "/" path] else []).
Proof.
  cbn [_walk]. f_equal.
  induction its as [|[k child] its IH]; simpl; [done|]. by rewrite IH.
Qed.

(** [_walk] adds to [rv] exactly the joined chunk sequences of the
    leaves. *)
Lemma elem_of_walk n :
  wf n → ∀ path s,
  s ∈ _walk n path ↔ ∃ l, is_leaf l n ∧ s = Str.join "/" (path ++ l).
Proof.
  induction n as [its IH] using node_ind. intros Hwf path s.
  inversion Hwf as [its' Hnodup Hchildren]; subst its'.
  rewrite _walk_unfold, elem_of_app. split.
  - intros [Hin|Hin].
    + apply list_elem_of_In, in_flat_map in Hin as [[k child] [Hkc Hin]].
      apply list_elem_of_In in Hkc, Hin.
      rewrite Forall_forall in IH, Hchildren.
      apply (IH _ Hkc (Hchildren _ Hkc)) in Hin as (l & Hleaf & ->).
      exists (k :: l). simpl. rewrite (elem_of_get _ _ _ Hnodup Hkc).
      split; [done|]. by rewrite <- (assoc_L (++)).
    + case_bool_decide as Hnil; [|by apply elem_of_nil in Hin].
      apply list_elem_of_singleton in Hin as ->. exists [].
      by rewrite (right_id_L [] (++)).
  - intros (l & Hleaf & ->). destruct l as [|k l]; simpl in Hleaf.
    + right. rewrite Hleaf, (right_id_L [] (++)). simpl. left.
    + left. destruct (get its k) as [child|] eqn:Hget; [|done].
      apply get_Some_elem_of in Hget.
      apply list_elem_of_In, in_flat_map. exists (k, child).
      split; [by apply list_elem_of_In|]. apply list_elem_of_In.
      rewrite Forall_forall in IH, Hchildren.
      apply (IH _ Hget (Hchildren _ Hget)). exists l.
      split; [done|]. by rewrite <- (assoc_L (++)).
Qed.

End trie.

(** ** Common-Root Reducer: the sort *)

Section sort.
Implicit Types (x y : list string) (l : list (list string)).

Lemma elem_of_insert_by_len x y l :
  y ∈ insert_by_len x l ↔ y = x ∨ y ∈ l.
Proof.
  induction l as [|z l IH]; simpl.
  - rewrite list_elem_of_singleton, elem_of_nil. tauto.
  - destruct (length z <=? length x); rewrite !elem_of_cons; [done|].
    rewrite IH. tauto.
Qed.

Lemma elem_of_sorted_by_len_desc y l : y ∈ sorted_by_len_desc l ↔ y ∈ l.
Proof.
  induction l as [|x l IH]; simpl; [done|].
  by rewrite elem_of_insert_by_len, elem_of_cons, IH.
Qed.

Lemma insert_by_len_sorted x l :
  StronglySorted longer_first l →
  StronglySorted longer_first (insert_by_len x l).
Proof.
  induction 1 as [|z l Hsorted IH Hz]; simpl.
  - repeat constructor.
  - destruct (Nat.leb_spec (length z) (length x)) as [Hle|Hlt].
    + constructor; [by constructor|]. constructor; [done|].
      eapply Forall_impl; [exact Hz|]. unfold longer_first. simpl. lia.
    + constructor; [done|]. apply Forall_forall.
      intros y [->|Hy]%elem_of_insert_by_len.
      * unfold longer_first. lia.
      * by eapply Forall_forall in Hz.
Qed.

Lemma sorted_by_len_desc_sorted l :
  StronglySorted longer_first (sorted_by_len_desc l).
Proof.
  induction l as [|x l IH]; simpl; [constructor|].
  by apply insert_by_len_sorted.
Qed.

End sort.

(** ** Common-Root Reducer: the result *)

Section reducer.
Implicit Types (paths : list string) (s a p d : string).
Implicit Types (L : list (list string)) (l q : list string).

Lemma wf_build L : wf (build L).
Proof.
  induction L as [|q L IH] using rev_ind; [apply wf_empty|].
  unfold build. rewrite foldl_snoc. by apply wf_insert_chunks.
Qed.

(** After the insertions, deepest first, the leaves are the inserted
    sequences that have no other inserted sequence as a prefix. *)
Lemma is_leaf_build L l :
  StronglySorted longer_first L →
  is_leaf l (build L)
  ↔ (L = [] ∧ l = []) ∨ (l ∈ L ∧ ∀ q, q ∈ L → q `prefix_of` l → q = l).
Proof.
  revert l. induction L as [|p L IH] using rev_ind; intros l Hsorted.
  - unfold build. simpl. rewrite is_leaf_empty. split.
    + intros ->. by left.
    + intros [[_ ->]|[Hl _]]; [done|]. by apply elem_of_nil in Hl.
  - apply StronglySorted_app in Hsorted as (Hlen & Hsorted & _).
    assert (∀ q, q ∈ L → length p ≤ length q) as Hshort.
    { intros q Hq. apply (Hlen q p Hq). left. }
    unfold build. rewrite foldl_snoc. fold (build L).
    rewrite is_leaf_insert_chunks, (IH _ Hsorted). split.
    + intros [->|([[-> ->]|[Hl Hmin]] & Hn1 & Hn2)]; right.
      * split; [apply elem_of_app; right; left|].
        intros q [Hq|Hq%list_elem_of_singleton]%elem_of_app Hpre; [|done].
        apply prefix_length_eq; [done|]. by apply Hshort.
      * destruct Hn2. apply prefix_nil.
      * split; [apply elem_of_app; by left|].
        intros q [Hq|Hq%list_elem_of_singleton]%elem_of_app Hpre; [auto|].
        subst q. destruct Hn1. done.
    + intros [[Hnil _]|[Hl Hmin]]; [by destruct L|].
      destruct (decide (l = p)) as [->|Hne]; [by left|right].
      apply elem_of_app in Hl as [Hl|Hl%list_elem_of_singleton]; [|done].
      split_and!.
      * right. split; [done|]. intros q Hq. apply Hmin.
        apply elem_of_app. by left.
      * intros Hpre. apply Hne. symmetry. apply Hmin; [|done].
        apply elem_of_app. right. left.
      * intros Hpre. apply Hne. apply prefix_length_eq; [done|].
        by apply Hshort.
Qed.

(** The reducer returns the input paths that are not nested under
    another input path; for no input at all it returns the empty
    string. *)
Lemma elem_of_find_common_roots paths s :
  s ∈ _find_common_roots paths
  ↔ (paths = [] ∧ s = "") ∨ (s ∈ paths ∧ ¬ nested_in paths s).
Proof.
  unfold _find_common_roots.
  change (Str.split Str.sep <$> paths) with (chunks <$> paths).
  rewrite (elem_of_walk _ (wf_build _)).
  setoid_rewrite (is_leaf_build _ _ (sorted_by_len_desc_sorted _)).
  split.
  - intros (l & [[Hnil ->]|[Hl Hmin]] & ->).
    + left. split; [|done]. destruct paths as [|p paths]; [done|].
      assert (chunks p ∈ sorted_by_len_desc (chunks <$> p :: paths)) as Hin.
      { rewrite elem_of_sorted_by_len_desc. left. }
      rewrite Hnil in Hin. by apply elem_of_nil in Hin.
    + right. rewrite elem_of_sorted_by_len_desc in Hl.
      apply list_elem_of_fmap in Hl as (p & -> & Hp).
      simpl. unfold chunks. rewrite join_split. split; [done|].
      intros (a & Ha & Hcov & Hne). apply Hne.
      apply (split_inj Str.sep), Hmin; [|done].
      rewrite elem_of_sorted_by_len_desc. apply list_elem_of_fmap. by exists a.
  - intros [[-> ->]|[Hs Hmin]].
    + exists []. split; [by left|done].
    + exists (chunks s). split; [|simpl; unfold chunks; by rewrite join_split].
      right. split.
      * rewrite elem_of_sorted_by_len_desc. apply list_elem_of_fmap. by exists s.
      * intros q Hq Hpre. rewrite elem_of_sorted_by_len_desc in Hq.
        apply list_elem_of_fmap in Hq as (a & -> & Ha).
        destruct (decide (a = s)) as [->|Hne]; [done|].
        destruct Hmin. by exists a.
Qed.

Lemma nested_under_shorter a p :
  nested_under a p → length (chunks a) < length (chunks p).
Proof.
  intros [Hcov Hne].
  destruct (decide (length (chunks p) ≤ length (chunks a))) as [Hle|]; [|lia].
  destruct Hne. apply (split_inj Str.sep). by apply prefix_length_eq.
Qed.

(** Every input path is covered by an input path that is not nested. *)
Lemma covered_by_top paths p :
  p ∈ paths → ∃ d, d ∈ paths ∧ ¬ nested_in paths d ∧ covers d p.
Proof.
  remember (length (chunks p)) as n eqn:Hn. revert p Hn.
  induction (lt_wf n) as [n _ IH]. intros p -> Hp.
  destruct (decide (nested_in paths p)) as [(a & Ha & Hnest)|Htop].
  - destruct (IH _ (nested_under_shorter _ _ Hnest) a eq_refl Ha)
      as (d & Hd & Htop & Hcov).
    exists d. split_and!; [done..|].
    unfold covers in *. by etrans; [|apply Hnest].
  - exists p. split_and!; [done..|]. by unfold covers.
Qed.

End reducer.

(** C3 as stated fails on the empty set, which is pairwise disjoint: the
    reducer returns the set holding the empty string. *)
Lemma C3_counterexample_empty_set :
  pairwise_disjoint []
  ∧ _find_common_roots [] = [""]
  ∧ ¬ (∀ s, s ∈ _find_common_roots [] ↔ s ∈ @nil string).
Proof.
  split_and!.
  - intros a p Ha. by apply elem_of_nil in Ha.
  - reflexivity.
  - intros Hall. apply (elem_of_nil ""), Hall. left.
Qed.

(** C3 (amended): on every non-empty pairwise-disjoint set of paths the
    reducer returns exactly the input set. *)
Theorem C3_reduce_identity_on_disjoint (paths : list string) :
  paths ≠ [] → pairwise_disjoint paths →
  ∀ s, s ∈ _find_common_roots paths ↔ s ∈ paths.
Proof.
  intros Hne Hdisj s. rewrite elem_of_find_common_roots. split.
  - intros [[? _]|[? _]]; done.
  - intros Hs. right. split; [done|].
    intros (a & Ha & Hnest). by apply (Hdisj a s).
Qed.

Lemma C3_reduce_identity_on_disjoint_witness :
  pairwise_disjoint ["/srv/app"; "/opt/lib"; "/srv/application"]
  ∧ ∀ s, s ∈ _find_common_roots ["/srv/app"; "/opt/lib"; "/srv/application"]
         ↔ s ∈ ["/srv/app"; "/opt/lib"; "/srv/application"].
Proof.
  assert (pairwise_disjoint ["/srv/app"; "/opt/lib"; "/srv/application"])
    as Hdisj by (apply (bool_decide_unpack _); vm_compute; reflexivity).
  split; [exact Hdisj|].
  exact (C3_reduce_identity_on_disjoint
           ["/srv/app"; "/opt/lib"; "/srv/application"]
           ltac:(discriminate) Hdisj).
Defined.

(** ** Poll Detector *)

Section poll.
Context (h : Host).
Implicit Types (files pre post seen : list string) (f filename : string).
Implicit Types (mtimes m : gmap string Z).

Lemma scan_cons_changed f files m :
  changed h m f → scan h (f :: files) m = ([f], m, Some f).
Proof.
  intros (old_time & mtime & Hold & Hstat & Hlt). cbn [scan].
  rewrite Hstat, Hold. by rewrite (proj2 (Z.ltb_lt _ _) Hlt).
Qed.

Lemma scan_cons_unchanged f files m :
  ¬ changed h m f →
  scan h (f :: files) m
  = let '(seen, m', hit) := scan h files (observe h m f) in (f :: seen, m', hit).
Proof.
  intros Hsame. cbn [scan]. unfold observe.
  destruct (stat_mtime h f) as [mtime|] eqn:Hstat; [|done].
  destruct (m !! f) as [old_time|] eqn:Hold; [|done].
  destruct (Z.ltb_spec old_time mtime) as [Hlt|]; [|done].
  destruct Hsame. by exists old_time, mtime.
Qed.

(** The scan of [pre ++ post] is the scan of [pre], continued on [post]
    unless [pre] stopped it. *)
Lemma scan_app pre post m :
  scan h (pre ++ post) m
  = let '(seen, m', hit) := scan h pre m in
    match hit with
    | Some f => (seen, m', Some f)
    | None =>
        let '(seen', m'', hit') := scan h post m' in (seen ++ seen', m'', hit')
    end.
Proof.
  revert m. induction pre as [|f pre IH]; intros m.
  - simpl. by destruct (scan h post m) as [[??]?].
  - rewrite <- app_comm_cons. destruct (decide (changed h m f)) as [Hch|Hsame].
    + by rewrite !scan_cons_changed.
    + rewrite !scan_cons_unchanged, IH by done.
      destruct (scan h pre (observe h m f)) as [[seen m'] [g|]]; [done|].
      by destruct (scan h post m') as [[??]?].
Qed.

(** A scan that does not stop passes every path to [os.stat]. *)
Lemma scan_no_hit files m seen m' :
  scan h files m = (seen, m', None) → seen = files.
Proof.
  revert m seen m'. induction files as [|f files IH]; intros m seen m'.
  - by intros [= <- _].
  - destruct (decide (changed h m f)) as [Hch|Hsame].
    + by rewrite scan_cons_changed.
    + rewrite scan_cons_unchanged by done.
      destruct (scan h files (observe h m f)) as [[seen0 m0] hit] eqn:Hscan.
      intros [= <- <- ->]. f_equal. by eapply IH.
Qed.

(** Where and why a scan stops. *)
Lemma scan_hit files m seen m' f :
  scan h files m = (seen, m', Some f) →
  ∃ pre post,
    files = pre ++ f :: post ∧ seen = pre ++ [f]
    ∧ scan h pre m = (pre, m', None) ∧ changed h m' f.
Proof.
  revert m seen. induction files as [|g files IH]; intros m seen.
  - by intros [=].
  - destruct (decide (changed h m g)) as [Hch|Hsame].
    + rewrite scan_cons_changed by done. intros [= <- <- <-].
      by exists [], files.
    + rewrite scan_cons_unchanged by done.
      destruct (scan h files (observe h m g)) as [[seen0 m0] hit] eqn:Hscan.
      intros [= <- <- ->].
      destruct (IH _ _ Hscan) as (pre & post & -> & -> & Hpre & Hch).
      exists (g :: pre), post. split_and!; [done..| |done].
      rewrite scan_cons_unchanged by done. by rewrite Hpre.
Qed.

(** A scan stops at the first path that changed. *)
Lemma scan_stops pre f post m m' :
  scan h pre m = (pre, m', None) → changed h m' f →
  scan h (pre ++ f :: post) m = (pre ++ [f], m', Some f).
Proof.
  intros Hpre Hch. rewrite scan_app, Hpre.
  by rewrite scan_cons_changed.
Qed.

(** What a scan does to the entry of one path: nothing, or the very
    first recording of its current modification time. *)
Lemma scan_lookup files m f :
  let m' := (scan h files m).1.2 in
  m' !! f = m !! f ∨ (m !! f = None ∧ m' !! f = stat_mtime h f).
Proof.
  revert m. induction files as [|g files IH]; intros m; [by left|].
  destruct (decide (changed h m g)) as [Hch|Hsame].
  - rewrite scan_cons_changed by done. by left.
  - rewrite scan_cons_unchanged by done. specialize (IH (observe h m g)).
    destruct (scan h files (observe h m g)) as [[seen0 m0] hit]. simpl in *.
    unfold observe in IH.
    destruct (stat_mtime h g) as [mtime|] eqn:Hstat; [|done].
    destruct (m !! g) as [old_time|] eqn:Hold; [done|].
    destruct (decide (g = f)) as [->|Hne].
    + rewrite lookup_insert_eq in IH. right. split; [done|].
      destruct IH as [->|[[=] _]]. by rewrite Hstat.
    + by rewrite lookup_insert_ne in IH.
Qed.

(** A path that was passed to [os.stat] successfully has a baseline
    afterwards. *)
Lemma scan_records files m f mtime :
  let '(seen, m', hit) := scan h files m in
  f ∈ seen → stat_mtime h f = Some mtime → is_Some (m' !! f).
Proof.
  revert m. induction files as [|g files IH]; intros m.
  - simpl. by intros ?%elem_of_nil.
  - destruct (decide (changed h m g)) as [Hch|Hsame].
    + rewrite scan_cons_changed by done.
      intros ->%list_elem_of_singleton _.
      destruct Hch as (old_time & _ & -> & _). by exists old_time.
    + rewrite scan_cons_unchanged by done. specialize (IH (observe h m g)).
      pose proof (scan_lookup files (observe h m g) f) as Hlook.
      destruct (scan h files (observe h m g)) as [[seen0 m0] hit]. simpl in *.
      intros [<-|Hin]%elem_of_cons Hstat; [|by apply IH].
      assert (is_Some (observe h m f !! f)) as [t Ht].
      { unfold observe. rewrite Hstat.
        destruct (m !! f) as [old_time|] eqn:Hold; [by rewrite Hold|].
        rewrite lookup_insert_eq. by eexists. }
      destruct Hlook as [->|[Hnone _]]; [by exists t|congruence].
Qed.

End poll.

Section poll_tick.
Context (h : Host) (r : Reloader).
Implicit Types (f : string) (mtimes m : gmap string Z).

(** [StatReloader.run] is the scan of the module files followed by the
    extra files. *)
Lemma StatReloader_run_scan mtimes :
  let tick := StatReloader_run h r mtimes in
  scan h (_iter_module_files h ++ extra_files r) mtimes
  = (st_seen tick, st_mtimes tick, st_trigger tick).
Proof.
  unfold StatReloader_run.
  destruct (scan h _ mtimes) as [[seen m] [f|]]; [|done].
  by destruct (log_reload h f).
Qed.


End poll_tick.

(** C4: in one tick of the Poll Detector, a path without a baseline when
    the loop body reaches it gets its current modification time recorded
    and the scan goes on; a path without a baseline at the start of the
    tick is never the one that triggers, and has its modification time as
    baseline afterwards if it was examined; and the tick triggers on [f]
    precisely when the scan reaches an occurrence of [f] without having
    stopped before, [f] then has a baseline, and its current modification
    time is strictly greater; a triggering tick on an open loop logs [f]
    and exits with the sentinel code, a tick that does not trigger goes
    to sleep. *)
Theorem C4_poll_baseline_then_trigger (h : Host) (r : Reloader)
    (mtimes : gmap string Z) :
  let files := _iter_module_files h ++ extra_files r in
  let tick := StatReloader_run h r mtimes in
  (∀ f rest m mtime,
      m !! f = None → stat_mtime h f = Some mtime →
      scan h (f :: rest) m
      = let '(seen, m', hit) := scan h rest (<[f := mtime]> m) in
        (f :: seen, m', hit))
  ∧ (∀ f, mtimes !! f = None →
          st_trigger tick ≠ Some f
          ∧ ∀ mtime, f ∈ st_seen tick → stat_mtime h f = Some mtime →
                     st_mtimes tick !! f = Some mtime)
  ∧ (∀ f, st_trigger tick = Some f
          ↔ ∃ pre post m,
              files = pre ++ f :: post
              ∧ scan h pre mtimes = (pre, m, None)
              ∧ ∃ old_time mtime,
                  m !! f = Some old_time ∧ stat_mtime h f = Some mtime
                  ∧ (old_time < mtime)%Z)
  ∧ (∀ f, st_trigger tick = Some f → loop_closed h = false →
          st_logged tick = [path_abspath h f]
          ∧ st_outcome tick = Exit EXIT_CODE)
  ∧ (st_trigger tick = None → st_outcome tick = sleep h r).
Proof.
  intros files tick.
  pose proof (StatReloader_run_scan h r mtimes) as Hscan.
  fold files tick in Hscan. simpl in Hscan.
  split_and!.
  - intros f rest m mtime Hnone Hstat.
    rewrite scan_cons_unchanged.
    + unfold observe. by rewrite Hstat, Hnone.
    + intros (old_time & _ & Hold & _). congruence.
  - intros f Hnone.
    pose proof (scan_lookup h files mtimes f) as Hlook.
    rewrite Hscan in Hlook. simpl in Hlook. split.
    + intros Hhit. rewrite Hhit in Hscan.
      apply scan_hit in Hscan
        as (pre & post & _ & _ & _ & old_time & mtime & Hold & Hstat & Hlt).
      destruct Hlook as [Hsame|[_ Hnew]]; [congruence|].
      assert (old_time = mtime) by congruence. lia.
    + intros mtime Hseen Hstat.
      pose proof (scan_records h files mtimes f mtime) as Hrec.
      rewrite Hscan in Hrec. destruct (Hrec Hseen Hstat) as [t Ht].
      destruct Hlook as [Hsame|[_ Hnew]]; congruence.
  - intros f. split.
    + intros Hhit. rewrite Hhit in Hscan.
      apply scan_hit in Hscan as (pre & post & Hfiles & _ & Hpre & Hch).
      by exists pre, post, (st_mtimes tick).
    + intros (pre & post & m & Hfiles & Hpre & Hch).
      rewrite Hfiles, (scan_stops h pre f post mtimes m Hpre Hch) in Hscan.
      congruence.
  - intros f. unfold tick, StatReloader_run. fold files.
    destruct (scan h files mtimes) as [[seen m] [g|]]; [|done].
    unfold log_reload. destruct (loop_closed h); [done|].
    simpl. by intros [= ->] _.
  - unfold tick, StatReloader_run. fold files.
    destruct (scan h files mtimes) as [[seen m] [g|]]; [|done].
    by destruct (log_reload h g).
Qed.



(** ** Event Detector: notifications *)

Section notifications.
Implicit Types (h : Host) (r : Reloader) (w : Watchdog).
Implicit Types (filename root stem : string) (parts : list string).

Lemma append_cons a (s1 s2 : string) :
  String a s1 +:+ s2 = String a (s1 +:+ s2).
Proof. reflexivity. Qed.

Lemma append_nil_r (s : string) : s +:+ "" = s.
Proof. induction s as [|a s IH]; [done|]. by rewrite append_cons, IH. Qed.

Lemma string_app_assoc (s1 s2 s3 : string) :
  (s1 +:+ s2) +:+ s3 = s1 +:+ (s2 +:+ s3).
Proof.
  induction s1 as [|a s1 IH]; [done|]. by rewrite !append_cons, IH.
Qed.

Lemma join_app c parts more :
  parts ≠ [] →
  Str.join c (parts ++ more)
  = Str.join c parts
    +:+ match more with [] => "" | _ => String c (Str.join c more) end.
Proof.
  induction parts as [|p parts IH]; [done|]. intros _.
  destruct parts as [|p' parts].
  - destruct more as [|q more]; simpl.
    + by rewrite append_nil_r.
    + done.
  - change ((p :: p' :: parts) ++ more) with (p :: ((p' :: parts) ++ more)).
    rewrite join_cons by done. rewrite IH by done.
    rewrite (join_cons c p (p' :: parts)) by done.
    by rewrite string_app_assoc.
Qed.

(** A directory covered by [root] starts with [root] as a string. *)
Lemma covers_startswith root d : covers root d → Str.startswith d root = true.
Proof.
  intros [more Hmore]. apply startswith_app.
  exists (match more with [] => "" | _ => String Str.sep (Str.join Str.sep more) end).
  transitivity (Str.join Str.sep (chunks d)); [symmetry; apply join_split|].
  rewrite Hmore, join_app by apply split_not_nil.
  unfold chunks. by rewrite join_split.
Qed.

Lemma startswith_any_elem_of s root (roots : list string) :
  root ∈ roots → Str.startswith s root = true → startswith_any s roots = true.
Proof.
  intros Hin Hstart. apply existsb_exists. exists root.
  by rewrite <- list_elem_of_In.
Qed.

(** The source counterpart of a compiled artifact. *)
Lemma drop_last_compiled filename :
  Str.endswith filename ".pyc" || Str.endswith filename ".pyo" = true →
  ∃ stem,
    (filename = stem +:+ ".pyc" ∨ filename = stem +:+ ".pyo")
    ∧ Str.drop_last filename = stem +:+ ".py".
Proof.
  intros [[stem ->]%endswith_app|[stem ->]%endswith_app]%orb_true_iff;
    exists stem; (split; [auto|]).
  - change ".pyc" with (".py" +:+ "c").
    by rewrite <- string_app_assoc, drop_last_snoc.
  - change ".pyo" with (".py" +:+ "o").
    by rewrite <- string_app_assoc, drop_last_snoc.
Qed.

(** While the loop is open every request is logged and raises the flag. *)
Lemma check_modification_open h r w filename :
  loop_closed h = false →
  check_modification h r w filename
  = (path_abspath h <$> reload_requests r w filename,
     match reload_requests r w filename with
     | [] => w
     | _ => set_should_reload w
     end).
Proof.
  intros Hopen. unfold check_modification.
  assert (∀ reqs logged w0,
    foldl (λ '(logged, w) f,
             let '(logged', w) := Watchdog_trigger_reload h w f in
             (logged ++ logged', w)) (logged, w0) reqs
    = (logged ++ (path_abspath h <$> reqs),
       match reqs with [] => w0 | _ => set_should_reload w0 end)) as Hfold.
  { induction reqs as [|f reqs IH]; intros logged w0; simpl.
    - by rewrite (right_id_L [] (++)).
    - unfold Watchdog_trigger_reload at 2, log_reload. rewrite Hopen. simpl.
      rewrite IH, <- (assoc_L (++)). simpl. by destruct reqs. }
  by rewrite Hfold.
Qed.

(** Once the loop is closed a notification changes nothing. *)
Lemma check_modification_closed h r w filename :
  loop_closed h = true → check_modification h r w filename = ([], w).
Proof.
  intros Hclosed. unfold check_modification.
  induction (reload_requests r w filename) as [|f reqs IH]; [done|].
  simpl. unfold Watchdog_trigger_reload at 2, log_reload.
  by rewrite Hclosed.
Qed.

(** A notification that arrives after the loop was closed logs nothing and
    leaves the flag as it was. *)
Example check_modification_after_close :
  let w := {| observable_paths := ["/srv/app"]; watches := ∅;
              should_reload := false |} in
  check_modification closed_host (Reloader_init closed_host [] Omitted) w
    "/srv/app/pkg/util.pyc"
  = ([], w).
Proof. reflexivity. Qed.

End notifications.

(** C6 as stated fails once the loop is closed: a notification about a
    compiled artifact under an observed root then sets no flag and logs
    nothing. *)
Lemma C6_counterexample_closed_loop :
  let w := {| observable_paths := ["/srv/app"]; watches := ∅;
              should_reload := false |} in
  let r := Reloader_init closed_host [] Omitted in
  Str.endswith "/srv/app/pkg/util.pyc" ".pyc" = true
  ∧ "/srv/app" ∈ observable_paths w
  ∧ Str.startswith (dirname "/srv/app/pkg/util.pyc") "/srv/app" = true
  ∧ check_modification closed_host r w "/srv/app/pkg/util.pyc" = ([], w)
  ∧ should_reload
      (check_modification closed_host r w "/srv/app/pkg/util.pyc").2
    = false.
Proof.
  intros w r. split_and!; [reflexivity| |reflexivity..].
  apply (bool_decide_unpack _). vm_compute. reflexivity.
Qed.

(** C6 (amended): while the loop is not closed, a notification about a
    ".pyc" or ".pyo" path whose directory is covered by, or as a string
    starts with, an observed root makes the Event Detector request a
    reload naming the source counterpart: [trigger_reload] is called with
    the path without its last character, which ends in ".py", that name
    is logged and the reload flag is raised. *)
Theorem C6_compiled_artifact_names_source (h : Host) (r : Reloader)
    (w : Watchdog) (filename root : string) :
  loop_closed h = false →
  Str.endswith filename ".pyc" = true ∨ Str.endswith filename ".pyo" = true →
  root ∈ observable_paths w →
  covers root (dirname filename)
  ∨ Str.startswith (dirname filename) root = true →
  ∃ stem,
    (filename = stem +:+ ".pyc" ∨ filename = stem +:+ ".pyo")
    ∧ Str.drop_last filename = stem +:+ ".py"
    ∧ stem +:+ ".py" ∈ reload_requests r w filename
    ∧ let '(logged, w') := check_modification h r w filename in
      path_abspath h (stem +:+ ".py") ∈ logged ∧ should_reload w' = true.
Proof.
  intros Hopen Hext Hroot Hunder.
  assert (Str.endswith filename ".pyc" || Str.endswith filename ".pyo" = true)
    as Hext' by (apply orb_true_iff; tauto).
  assert (Str.startswith (dirname filename) root = true) as Hstart.
  { destruct Hunder as [Hcov|?]; [by apply covers_startswith|done]. }
  destruct (drop_last_compiled filename Hext') as (stem & Hname & Hdrop).
  assert (stem +:+ ".py" ∈ reload_requests r w filename) as Hreq.
  { unfold reload_requests. apply elem_of_app. right.
    rewrite (startswith_any_elem_of _ root _ Hroot Hstart), Hext', Hdrop.
    left. }
  exists stem. split_and!; [done..|].
  rewrite check_modification_open by done. split.
  - apply list_elem_of_fmap. by exists (stem +:+ ".py").
  - by destruct Hreq.
Qed.

Lemma C6_compiled_artifact_names_source_witness :
  let w := {| observable_paths := ["/srv/app"]; watches := ∅;
              should_reload := false |} in
  let r := Reloader_init demo_host [] Omitted in
  loop_closed demo_host = false
  ∧ Str.endswith "/srv/app/pkg/util.pyc" ".pyc" = true
  ∧ ∃ stem,
      ("/srv/app/pkg/util.pyc" = stem +:+ ".pyc"
       ∨ "/srv/app/pkg/util.pyc" = stem +:+ ".pyo")
      ∧ Str.drop_last "/srv/app/pkg/util.pyc" = stem +:+ ".py"
      ∧ stem +:+ ".py" ∈ reload_requests r w "/srv/app/pkg/util.pyc"
      ∧ let '(logged, w') :=
          check_modification demo_host r w "/srv/app/pkg/util.pyc" in
        path_abspath demo_host (stem +:+ ".py") ∈ logged
        ∧ should_reload w' = true.
Proof.
  intros w r. split; [reflexivity|]. split; [reflexivity|].
  apply (C6_compiled_artifact_names_source demo_host r w
           "/srv/app/pkg/util.pyc" "/srv/app").
  - reflexivity.
  - left. reflexivity.
  - apply (bool_decide_unpack _). vm_compute. reflexivity.
  - right. reflexivity.
Defined.

(** ** Reloader: the tick interval *)

(** C7 as stated fails for a negative interval: it is truthy, so [or]
    keeps it. *)
Lemma C7_counterexample_negative_interval :
  (-3 <= 0)%Q
  ∧ interval (Reloader_init demo_host [] (Seconds (-3))) = (-3)%Q
  ∧ ¬ (interval (Reloader_init demo_host [] (Seconds (-3))) == 1)%Q.
Proof. split_and!; [done|reflexivity|done]. Qed.

(** C7 (amended): the effective interval is 1 when the argument is
    omitted, [None] or equal to zero, and is the given value whenever that
    is a number other than zero, positive or negative. *)
Theorem C7_interval_defaults_when_falsy (h : Host) (extra : list string) :
  interval (Reloader_init h extra Omitted) = 1%Q
  ∧ interval (Reloader_init h extra PyNone) = 1%Q
  ∧ (∀ q, (q == 0)%Q → interval (Reloader_init h extra (Seconds q)) = 1%Q)
  ∧ (∀ q, ¬ (q == 0)%Q → interval (Reloader_init h extra (Seconds q)) = q)
  ∧ (∀ q, (0 < q)%Q → interval (Reloader_init h extra (Seconds q)) = q)
  ∧ (∀ q, (q < 0)%Q → interval (Reloader_init h extra (Seconds q)) = q).
Proof.
  assert (∀ q, ¬ (q == 0)%Q → interval (Reloader_init h extra (Seconds q)) = q)
    as Hkeep.
  { intros q Hq. simpl. destruct (Qeq_bool q 0) eqn:Heq; [|done].
    by apply Qeq_bool_eq in Heq. }
  split_and!; [done|done| |done|..].
  - intros q Hq. simpl. by rewrite (Qeq_eq_bool _ _ Hq).
  - intros q Hq. apply Hkeep. intros Heq. rewrite Heq in Hq.
    by apply Qlt_irrefl in Hq.
  - intros q Hq. apply Hkeep. intros Heq. rewrite Heq in Hq.
    by apply Qlt_irrefl in Hq.
Qed.

(** ** Path-Set Builder: the file sequence *)

Section builder.
Implicit Types (h : Host) (m : py_module) (p f s : string).

Lemma length_append (s1 s2 : string) :
  String.length (s1 +:+ s2) = String.length s1 + String.length s2.
Proof.
  induction s1 as [|a s1 IH]; [done|]. rewrite append_cons. simpl. by rewrite IH.
Qed.

Lemma upto_last_prefix c p : ∃ rest, p = Str.upto_last c p +:+ rest.
Proof.
  induction p as [|a r [rest IH]]; [by exists ""|]. cbn [Str.upto_last].
  destruct (Str.upto_last c r) as [|b head].
  - destruct (Ascii.eqb a c); [by exists r|by exists (String a r)].
  - exists rest. rewrite append_cons. by rewrite <- IH.
Qed.

Lemma rstrip_prefix c s : ∃ rest, s = Str.rstrip c s +:+ rest.
Proof.
  induction s as [|a r [rest IH]]; [by exists ""|]. cbn [Str.rstrip].
  destruct (Str.rstrip c r) as [|b head].
  - destruct (Ascii.eqb a c); [by exists (String a r)|by exists r].
  - exists rest. rewrite append_cons. by rewrite <- IH.
Qed.

Lemma dirname_prefix p : ∃ rest, p = dirname p +:+ rest.
Proof.
  unfold dirname. destruct (upto_last_prefix Str.sep p) as [rest Hrest].
  destruct (_ && _); [|by exists rest].
  destruct (rstrip_prefix Str.sep (Str.upto_last Str.sep p)) as [rest' Hrest'].
  exists (rest' +:+ rest). by rewrite <- string_app_assoc, <- Hrest'.
Qed.

(** Every step of the ascent that does not stall shortens the name. *)
Lemma dirname_shorter p :
  dirname p ≠ p → String.length (dirname p) < String.length p.
Proof.
  intros Hne. destruct (dirname_prefix p) as [rest Hrest].
  destruct rest as [|a rest].
  - destruct Hne. by rewrite append_nil_r in Hrest.
  - rewrite Hrest at 2. rewrite length_append. simpl. lia.
Qed.

(** The ascent ends within the fuel [module_files] gives it. *)
Lemma ascend_finishes h fuel f :
  String.length f < fuel → ascend h fuel f ≠ Unfinished.
Proof.
  revert f. induction fuel as [|fuel IH]; intros f Hlen; [lia|].
  cbn [ascend]. destruct (path_isfile h f); [done|].
  destruct (String.eqb_spec (dirname f) f) as [|Hne]; [done|].
  apply IH. apply dirname_shorter in Hne. lia.
Qed.






End builder.



(** ** Entry point *)

Lemma reloaders_lookup h name :
  reloaders h !! name
  = if decide (name = "auto")
    then Some (if has_watchdog h then WatchdogReloader else StatReloader)
    else if decide (name = "watchdog")
    then (if has_watchdog h then Some WatchdogReloader else None)
    else if decide (name = "stat") then Some StatReloader else None.
Proof.
  unfold reloaders. destruct (has_watchdog h);
    repeat case_decide; simplify_map_eq; done.
Qed.

(** C10: a strategy name other than "stat" and "auto", and other than
    "watchdog" unless the watchdog package is missing, has no entry in
    the registry; [start] then raises the lookup error with no detector
    constructed and no child spawned. *)
Theorem C10_unknown_strategy_raises (h : Host) (children : list Z)
    (name : string) (arg : interval_arg) :
  name ≠ "stat" → name ≠ "auto" →
  (name = "watchdog" → has_watchdog h = false) →
  reloaders h !! name = None
  ∧ start h children name arg
    = ({| constructed := []; spawned := [] |}, KeyError name).
Proof.
  intros Hstat Hauto Hwatchdog.
  assert (reloaders h !! name = None) as Hnone.
  { rewrite reloaders_lookup. rewrite !decide_False by done.
    case_decide as Hw; [|by rewrite decide_False].
    by rewrite (Hwatchdog Hw). }
  split; [done|]. unfold start. by rewrite Hnone.
Qed.

Lemma C10_unknown_strategy_raises_witness :
  has_watchdog bare_host = false
  ∧ reloaders bare_host !! "watchdog" = None
  ∧ start bare_host [0%Z] "watchdog" PyNone
    = ({| constructed := []; spawned := [] |}, KeyError "watchdog").
Proof.
  split; [reflexivity|].
  apply (C10_unknown_strategy_raises bare_host [0%Z] "watchdog" PyNone);
    [discriminate|discriminate|reflexivity].
Defined.

(** ** Event Detector: the watch table *)

Section watch_table.
Context (r : Reloader).
Implicit Types (h : Host) (w : Watchdog) (paths : list string) (d : string).
Implicit Types (table : gmap string (option watch)) (td : gset string).

Lemma register_spec h paths table td :
  let '(calls, table', td') := register h paths table td in
  (∀ d, Schedule d ∈ calls ↔ d ∈ paths ∧ table !! d = None)
  ∧ (∀ d, table' !! d
          = if decide (d ∈ paths ∧ table !! d = None)
            then Some (schedule_result h d) else table !! d)
  ∧ td' = td ∖ list_to_set paths.
Proof.
  revert table td. induction paths as [|path rest IH]; intros table td.
  - cbn [register]. split_and!.
    + intros d. rewrite !elem_of_nil. tauto.
    + intros d. rewrite decide_False; [done|]. rewrite elem_of_nil. tauto.
    + set_solver.
  - cbn [register].
    set (table1 := if bool_decide (table !! path = None)
                   then <[path := schedule_result h path]> table else table).
    assert (∀ d, table1 !! d
                 = if decide (d = path ∧ table !! d = None)
                   then Some (schedule_result h d) else table !! d) as Hlook1.
    { intros d. unfold table1. case_bool_decide as Hnone.
      - destruct (decide (d = path)) as [->|Hne].
        + rewrite lookup_insert_eq. by rewrite decide_True.
        + rewrite lookup_insert_ne by done. rewrite decide_False; tauto.
      - rewrite decide_False; [done|]. by intros [-> ?]. }
    specialize (IH table1 (td ∖ {[path]})).
    assert (register h rest
              (if bool_decide (table !! path = None)
               then ([Schedule path], <[path := schedule_result h path]> table)
               else ([], table)).2 (td ∖ {[path]})
            = register h rest table1 (td ∖ {[path]})) as Heq.
    { unfold table1. by case_bool_decide. }
    destruct (register h rest table1 (td ∖ {[path]}))
      as [[calls' table'] td'] eqn:Hreg.
    destruct IH as (Hcalls & Hlook & Htd).
    assert ((let '(calls, watches) :=
               if bool_decide (table !! path = None)
               then ([Schedule path], <[path := schedule_result h path]> table)
               else ([], table) in
             let '(calls', watches0, to_delete) :=
               register h rest watches (td ∖ {[path]}) in
             (calls ++ calls', watches0, to_delete))
            = ((if bool_decide (table !! path = None)
                then [Schedule path] else []) ++ calls', table', td')) as ->.
    { unfold table1 in Hreg. case_bool_decide; by rewrite Hreg. }
    split_and!.
    + intros d. rewrite elem_of_app, Hcalls, Hlook1, elem_of_cons.
      case_bool_decide as Hnone.
      * rewrite list_elem_of_singleton. split.
        -- intros [[= ->]|[Hin Hd]]; [tauto|].
           case_decide; [done|]. tauto.
        -- intros [[->|Hin] Hd]; [by left|].
           destruct (decide (d = path)) as [->|Hne]; [by left|right].
           split; [done|]. rewrite decide_False; tauto.
      * rewrite elem_of_nil. split.
        -- intros [[]|[Hin Hd]]. case_decide; [done|]. tauto.
        -- intros [[->|Hin] Hd]; [done|]. right. split; [done|].
           rewrite decide_False; [done|]. by intros [-> ?].
    + intros d. rewrite Hlook. clear Hlook Hcalls.
      destruct (decide (d ∈ rest ∧ table1 !! d = None)) as [[Hin H1]|Hno1].
      * rewrite Hlook1 in H1. case_decide as H2; [done|].
        rewrite decide_True; [done|]. split; [by right|done].
      * rewrite Hlook1. rewrite Hlook1 in Hno1.
        destruct (decide (d = path ∧ table !! d = None)) as [[-> Hn]|H2].
        -- rewrite decide_True; [done|]. split; [left|done].
        -- destruct (decide (d ∈ path :: rest ∧ table !! d = None))
             as [[[->|Hin]%elem_of_cons Hn]|Hno]; [tauto|tauto|done].
    + rewrite Htd. set_solver.
Qed.

Lemma unregister_spec tdl table :
  let '(calls, table') := unregister tdl table in
  (∀ d, Schedule d ∉ calls)
  ∧ (∀ d, table' !! d = if decide (d ∈ tdl) then None else table !! d).
Proof.
  revert table. induction tdl as [|path rest IH]; intros table.
  - cbn [unregister]. split; intros d; [apply not_elem_of_nil|].
    rewrite decide_False; [done|apply not_elem_of_nil].
  - cbn [unregister]. specialize (IH (delete path table)).
    destruct (unregister rest (delete path table)) as [calls' table'].
    destruct IH as [Hcalls Hlook]. split.
    + intros d [Hin|Hin]%elem_of_app; [|by apply (Hcalls d)].
      destruct (default None (table !! path)); [|by apply elem_of_nil in Hin].
      by apply list_elem_of_singleton in Hin.
    + intros d. rewrite Hlook. clear Hlook Hcalls.
      destruct (decide (d ∈ rest)) as [Hin|Hnotin].
      * rewrite decide_True; [done|by right].
      * destruct (decide (d = path)) as [->|Hne].
        -- rewrite lookup_delete_eq. rewrite decide_True; [done|left].
        -- rewrite lookup_delete_ne by done. rewrite decide_False; [done|].
           by intros [?|?]%elem_of_cons.
Qed.

(** A tick that gets as far as the registration loop. *)
Lemma Watchdog_run_on_spec h w paths :
  should_reload w = false → loop_closed h = false →
  let '(calls, w', o) := Watchdog_run_on h r w paths in
  (∀ d, Schedule d ∈ calls ↔ d ∈ paths ∧ watches w !! d = None)
  ∧ (∀ d, d ∈ paths →
          watches w' !! d
          = if decide (watches w !! d = None)
            then Some (schedule_result h d) else watches w !! d).
Proof.
  intros Hflag Hopen. unfold Watchdog_run_on. rewrite Hflag, Hopen.
  pose proof (register_spec h paths (watches w) (dom (watches w))) as Hreg.
  destruct (register h paths (watches w) (dom (watches w)))
    as [[calls table] td].
  destruct Hreg as (Hcalls & Hlook & ->).
  pose proof (unregister_spec
                (elements (dom (watches w) ∖ list_to_set paths)) table) as Hun.
  destruct (unregister _ table) as [calls' table'].
  destruct Hun as [Hcalls' Hlook']. simpl. split.
  - intros d. rewrite elem_of_app, Hcalls. split; [|tauto].
    intros [?|Hin]; [done|]. by apply Hcalls' in Hin.
  - intros d Hd. rewrite Hlook', Hlook.
    rewrite decide_False by set_solver.
    destruct (decide (watches w !! d = None)).
    + by rewrite decide_True.
    + rewrite decide_False; [done|]. tauto.
Qed.

(** No tick touches the entry of a directory that is in the table and
    still desired. *)
Lemma Watchdog_run_on_keeps h w paths d :
  d ∈ paths → is_Some (watches w !! d) →
  let '(calls, w', o) := Watchdog_run_on h r w paths in
  (Schedule d ∉ calls) ∧ watches w' !! d = watches w !! d.
Proof.
  intros Hd [x Hx].
  destruct (should_reload w) eqn:Hflag;
    [unfold Watchdog_run_on; rewrite Hflag; split; [apply not_elem_of_nil|done]|].
  destruct (loop_closed h) eqn:Hopen;
    [unfold Watchdog_run_on; rewrite Hflag, Hopen;
     split; [apply not_elem_of_nil|done]|].
  pose proof (Watchdog_run_on_spec h w paths Hflag Hopen) as Hspec.
  destruct (Watchdog_run_on h r w paths) as [[calls w'] o].
  destruct Hspec as [Hcalls Hlook]. split.
  - rewrite Hcalls, Hx. by intros [_ ?].
  - rewrite (Hlook d Hd), Hx. by rewrite decide_False.
Qed.

Lemma check_modification_watches h w filename :
  watches (check_modification h r w filename).2 = watches w.
Proof.
  destruct (loop_closed h) eqn:Hclosed.
  - by rewrite check_modification_closed.
  - rewrite check_modification_open by done. simpl.
    by destruct (reload_requests r w filename).
Qed.

Lemma notify_watches h w notified :
  watches (notify h r w notified) = watches w.
Proof.
  revert w. induction notified as [|f notified IH]; intros w; [done|].
  unfold notify in *. simpl. by rewrite IH, check_modification_watches.
Qed.

(** Over any number of ticks in which [d] stays desired, an entry of the
    table for [d] is kept and no registration of [d] is attempted. *)
Lemma run_ticks_keeps w ticks d :
  Forall (λ t, d ∈ tick_paths t) ticks → is_Some (watches w !! d) →
  let '(calls, w') := run_ticks r w ticks in
  (Schedule d ∉ calls) ∧ watches w' !! d = watches w !! d.
Proof.
  intros Hticks. revert w. induction Hticks as [|t ticks Ht _ IH]; intros w Hw.
  - simpl. split; [apply not_elem_of_nil|done].
  - cbn [run_ticks].
    pose proof (Watchdog_run_on_keeps (tick_host t)
                  (notify (tick_host t) r w (tick_notified t))
                  (tick_paths t) d Ht) as Hkeep.
    rewrite notify_watches in Hkeep. specialize (Hkeep Hw).
    destruct (Watchdog_run_on _ _ _ _) as [[calls w1] o].
    destruct Hkeep as [Hcalls Hlook].
    specialize (IH w1). rewrite Hlook in IH. specialize (IH Hw).
    destruct (run_ticks r w1 ticks) as [calls' w2].
    destruct IH as [Hcalls' Hlook']. split; [|done].
    intros [?|?]%elem_of_app; tauto.
Qed.

End watch_table.

(** C8: when [observer.schedule] fails for a desired directory [d] on a
    tick, the table maps [d] to the null placeholder; every other desired
    directory that was not in the table is still registered on that tick;
    and over all later ticks in which [d] stays desired, whatever is
    notified in between, no registration of [d] is attempted again and
    the placeholder stays. *)
Theorem C8_failed_watch_is_not_retried (h : Host) (r : Reloader)
    (w : Watchdog) (paths : list string) (d : string) (later : list tick) :
  should_reload w = false → loop_closed h = false →
  d ∈ paths → watches w !! d = None → schedule_fails h d = true →
  Forall (λ t, d ∈ tick_paths t) later →
  let '(calls, w', _) := Watchdog_run_on h r w paths in
  let '(calls', w'') := run_ticks r w' later in
  Schedule d ∈ calls
  ∧ watches w' !! d = Some None
  ∧ (∀ d', d' ∈ paths → watches w !! d' = None →
           Schedule d' ∈ calls
           ∧ watches w' !! d'
             = Some (if schedule_fails h d' then None
                     else Some (ObservedWatch d' true)))
  ∧ (Schedule d ∉ calls')
  ∧ watches w'' !! d = Some None.
Proof.
  intros Hflag Hopen Hd Hnone Hfails Hlater.
  pose proof (Watchdog_run_on_spec r h w paths Hflag Hopen) as Hspec.
  destruct (Watchdog_run_on h r w paths) as [[calls w'] o].
  destruct Hspec as [Hcalls Hlook].
  assert (watches w' !! d = Some None) as Hplaceholder.
  { rewrite (Hlook d Hd), decide_True by done.
    unfold schedule_result. by rewrite Hfails. }
  pose proof (run_ticks_keeps r w' later d Hlater) as Hkeep.
  rewrite Hplaceholder in Hkeep. specialize (Hkeep (mk_is_Some _ _ eq_refl)).
  destruct (run_ticks r w' later) as [calls' w''].
  destruct Hkeep as [Hcalls' Hlook'].
  split_and!; [by apply Hcalls|done| |done|done].
  intros d' Hd' Hnone'. split; [by apply Hcalls|].
  by rewrite (Hlook d' Hd'), decide_True.
Qed.

Lemma C8_failed_watch_is_not_retried_witness :
  let r := Reloader_init demo_host [] Omitted in
  let paths := _find_observable_paths demo_host (extra_files r) in
  let later :=
    [ {| tick_host := demo_host; tick_notified := ["/srv/app/notes.txt"];
         tick_paths := paths |};
      {| tick_host := demo_host; tick_notified := [];
         tick_paths := "/opt/lib" :: paths |} ] in
  schedule_fails demo_host "/usr/lib/python3" = true
  ∧ let '(calls, w', _) := Watchdog_run_on demo_host r Watchdog_init paths in
    let '(calls', w'') := run_ticks r w' later in
    Schedule "/usr/lib/python3" ∈ calls
    ∧ watches w' !! "/usr/lib/python3" = Some None
    ∧ (∀ d', d' ∈ paths → watches Watchdog_init !! d' = None →
             Schedule d' ∈ calls
             ∧ watches w' !! d'
               = Some (if schedule_fails demo_host d' then None
                       else Some (ObservedWatch d' true)))
    ∧ (Schedule "/usr/lib/python3" ∉ calls')
    ∧ watches w'' !! "/usr/lib/python3" = Some None.
Proof.
  intros r paths later. split; [reflexivity|].
  apply (C8_failed_watch_is_not_retried demo_host r Watchdog_init paths
           "/usr/lib/python3" later);
    [reflexivity|reflexivity| |reflexivity|reflexivity|];
    apply (bool_decide_unpack _); vm_compute; reflexivity.
Defined.

(** * Further properties *)

(** ** Restart Supervisor and tick interval *)

Lemma restart_with_reloader_result h children :
  let '(spawns, result) := restart_with_reloader h children in
  Forall (λ s, s = spawn_child h) spawns
  ∧ 1 ≤ length spawns ≤ S (length children)
  ∧ (result = None ↔ Forall (λ c, c = EXIT_CODE) children)
  ∧ (∀ code, result = Some code → code ≠ EXIT_CODE ∧ code ∈ children).
Proof.
  induction children as [|c children IH]; cbn [restart_with_reloader].
  - split_and!; [by repeat constructor|simpl; lia|simpl; lia|done|done].
  - destruct (Z.eqb_spec c EXIT_CODE) as [->|Hne]; cbn [negb].
    + destruct (restart_with_reloader h children) as [spawns result].
      destruct IH as (Hall & Hlen & Hnone & Hsome). split_and!.
      * by constructor.
      * simpl. lia.
      * simpl. lia.
      * rewrite Hnone. split; [by constructor|]. by intros [_ ?]%Forall_cons.
      * intros code Hcode. destruct (Hsome code Hcode). split; [done|by right].
    + split_and!; [by repeat constructor|simpl; lia|simpl; lia| |].
      * split; [done|]. by intros [? _]%Forall_cons.
      * intros code [= <-]. split; [done|left].
Qed.

Lemma spawn_child_env h (name : string) :
  spawn_env (spawn_child h) !! name
  = if decide (name = PULSAR_RUN_MAIN) then Some "true"
    else os_environ h !! name.
Proof.
  unfold spawn_child. cbn [spawn_env]. case_decide as Hname.
  - subst name. apply lookup_insert_eq.
  - by apply lookup_insert_ne.
Qed.

(** X1: whatever the children do, the supervisor never returns the
    sentinel code: a result is the exit code of a child and differs from
    5; there is no result exactly when every child exited with 5; there
    is at least one spawn and at most one more than there are child
    exits; every spawn has the same command line and the supervisor's
    environment with only the marker variable set to "true". *)
Theorem X1_supervisor_never_returns_sentinel (h : Host) (children : list Z) :
  let run := restart_with_reloader h children in
  Forall (λ s, spawn_args s = _get_args_for_reloading h
               ∧ ∀ name, spawn_env s !! name
                         = if decide (name = PULSAR_RUN_MAIN) then Some "true"
                           else os_environ h !! name) run.1
  ∧ 1 ≤ length run.1 ≤ S (length children)
  ∧ (run.2 = None ↔ Forall (λ c, c = 5%Z) children)
  ∧ (∀ code, run.2 = Some code → code ≠ 5%Z ∧ code ∈ children).
Proof.
  intros run. pose proof (restart_with_reloader_result h children) as Hrun.
  fold run in Hrun. destruct run as [spawns result].
  destruct Hrun as (Hall & Hrest). split; [|done].
  eapply Forall_impl; [exact Hall|]. intros s ->.
  split; [done|]. apply spawn_child_env.
Qed.

(** X3: the effective interval of a detector is never zero, whatever
    argument it was constructed with, so [call_later] never gets a zero
    delay from [sleep]. *)
Theorem X3_interval_never_zero (h : Host) (extra : list string)
    (arg : interval_arg) :
  Qeq_bool (interval (Reloader_init h extra arg)) 0 = false
  ∧ (loop_closed h = false →
     sleep h (Reloader_init h extra arg)
     = Scheduled (interval (Reloader_init h extra arg)))
  ∧ (loop_closed h = true → sleep h (Reloader_init h extra arg) = Idle).
Proof.
  split_and!.
  - destruct arg as [| |q]; cbn; [done|done|].
    by destruct (Qeq_bool q 0) eqn:Hq.
  - unfold sleep. by intros ->.
  - unfold sleep. by intros ->.
Qed.

(** ** Common-Root Reducer *)

Section reducer_more.
Implicit Types (paths : list string) (s a d : string).
Implicit Types (l p q : list string).

Lemma nested_in_ext paths paths' s :
  (∀ x, x ∈ paths ↔ x ∈ paths') → nested_in paths s ↔ nested_in paths' s.
Proof.
  intros Hsame. unfold nested_in.
  split; intros (a & Ha & Hnest); exists a; (split; [by apply Hsame|done]).
Qed.

Lemma find_common_roots_not_nil paths : _find_common_roots paths ≠ [].
Proof.
  destruct paths as [|a paths]; [done|].
  destruct (covered_by_top (a :: paths) a) as (d & Hd & Htop & _); [left|].
  assert (d ∈ _find_common_roots (a :: paths)) as Hin.
  { apply elem_of_find_common_roots. by right. }
  intros Hnil. rewrite Hnil in Hin. by apply elem_of_nil in Hin.
Qed.

Lemma walk_build_pair p q s :
  p `prefix_of` q → p ≠ q →
  (s ∈ _walk (build [p; q]) [] ↔ s = Str.join "/" q)
  ∧ (s ∈ _walk (build [q; p]) [] ↔ s = Str.join "/" p).
Proof.
  intros Hpre Hne.
  assert (¬ q `prefix_of` p) as Hnot.
  { intros Hqp. apply Hne. apply prefix_length_eq; [done|].
    by apply prefix_length. }
  rewrite !(elem_of_walk _ (wf_build _)). unfold build. cbn [foldl].
  split; split.
  - intros (l & Hleaf & ->). f_equal.
    apply is_leaf_insert_chunks in Hleaf as [->|(Hleaf & Hn1 & Hn2)]; [done|].
    apply is_leaf_insert_chunks in Hleaf as [->|(Hleaf & _)]; [done|].
    apply is_leaf_empty in Hleaf as ->. destruct Hn2. apply prefix_nil.
  - intros ->. exists q. split; [|done]. apply is_leaf_insert_chunks. by left.
  - intros (l & Hleaf & ->). f_equal.
    apply is_leaf_insert_chunks in Hleaf as [->|(Hleaf & Hn1 & Hn2)]; [done|].
    apply is_leaf_insert_chunks in Hleaf as [->|(Hleaf & _)]; [done|].
    apply is_leaf_empty in Hleaf as ->. destruct Hn2. apply prefix_nil.
  - intros ->. exists p. split; [|done]. apply is_leaf_insert_chunks. by left.
Qed.

End reducer_more.

(** X4: the reducer's result depends on the input as a set only: two
    inputs with the same elements, in any order and with any repetitions,
    give results with the same elements. *)
Theorem X4_reduce_depends_on_set_only (paths paths' : list string) :
  (∀ x, x ∈ paths ↔ x ∈ paths') →
  ∀ s, s ∈ _find_common_roots paths ↔ s ∈ _find_common_roots paths'.
Proof.
  intros Hsame s. rewrite !elem_of_find_common_roots.
  rewrite (nested_in_ext paths paths' s Hsame), (Hsame s).
  assert (paths = [] ↔ paths' = []) as Hnil.
  { split; intros ->.
    - destruct paths' as [|x ?]; [done|].
      exfalso. apply (elem_of_nil x), Hsame. left.
    - destruct paths as [|x ?]; [done|].
      exfalso. apply (elem_of_nil x), Hsame. left. }
  by rewrite Hnil.
Qed.

Lemma X4_reduce_depends_on_set_only_witness :
  (∀ x, x ∈ ["/srv/app/pkg"; "/srv/app"; "/opt/lib"]
        ↔ x ∈ ["/opt/lib"; "/srv/app"; "/srv/app/pkg"; "/srv/app"])
  ∧ ∀ s, s ∈ _find_common_roots ["/srv/app/pkg"; "/srv/app"; "/opt/lib"]
         ↔ s ∈ _find_common_roots
                 ["/opt/lib"; "/srv/app"; "/srv/app/pkg"; "/srv/app"].
Proof.
  assert (∀ x, x ∈ ["/srv/app/pkg"; "/srv/app"; "/opt/lib"]
               ↔ x ∈ ["/opt/lib"; "/srv/app"; "/srv/app/pkg"; "/srv/app"])
    as Hsame.
  { intros x. rewrite !elem_of_cons, !elem_of_nil. tauto. }
  split; [exact Hsame|].
  exact (X4_reduce_depends_on_set_only _ _ Hsame).
Defined.

(** X5: reducing is idempotent: the reducer maps its own result to a set
    with the same elements, for every input including the empty one. *)
Theorem X5_reduce_idempotent (paths : list string) (s : string) :
  s ∈ _find_common_roots (_find_common_roots paths)
  ↔ s ∈ _find_common_roots paths.
Proof.
  rewrite (elem_of_find_common_roots (_find_common_roots paths)). split.
  - intros [[Hnil _]|[Hs _]]; [|done].
    by destruct (find_common_roots_not_nil paths).
  - intros Hs. right. split; [done|].
    intros (a & Ha & Hnest).
    apply elem_of_find_common_roots in Hs as [[-> ->]|[Hs Htop]].
    + apply list_elem_of_singleton in Ha as ->. by destruct Hnest.
    + apply elem_of_find_common_roots in Ha as [[-> _]|[Ha _]].
      * by apply elem_of_nil in Hs.
      * apply Htop. by exists a.
Qed.

(** X6: the insertion loop depends on the deepest-first order: when a
    chunk sequence [q] properly extends [p], processing [q] before [p]
    leaves [p] as the only root, while processing [p] first would leave
    [q], the descendant, and lose the ancestor. *)
Theorem X6_insertion_order_matters (p q : list string) (s : string) :
  p `prefix_of` q → p ≠ q →
  (s ∈ _walk (build [q; p]) [] ↔ s = Str.join "/" p)
  ∧ (s ∈ _walk (build [p; q]) [] ↔ s = Str.join "/" q).
Proof.
  intros Hpre Hne.
  destruct (walk_build_pair p q s Hpre Hne) as [Hpq Hqp]. by split.
Qed.

Lemma X6_insertion_order_matters_witness :
  chunks "/srv/app" `prefix_of` chunks "/srv/app/pkg"
  ∧ (("/srv/app" ∈ _walk (build [chunks "/srv/app/pkg"; chunks "/srv/app"]) []
      ↔ "/srv/app" = Str.join "/" (chunks "/srv/app"))
     ∧ ("/srv/app" ∈ _walk (build [chunks "/srv/app"; chunks "/srv/app/pkg"]) []
        ↔ "/srv/app" = Str.join "/" (chunks "/srv/app/pkg"))).
Proof.
  assert (chunks "/srv/app" `prefix_of` chunks "/srv/app/pkg") as Hpre
    by (apply (bool_decide_unpack _); vm_compute; reflexivity).
  split; [exact Hpre|].
  exact (X6_insertion_order_matters (chunks "/srv/app") (chunks "/srv/app/pkg")
           "/srv/app" Hpre ltac:(discriminate)).
Defined.

(** ** Path-Set Builder *)

Section builder_more.
Implicit Types (h : Host) (f g p s suffix : string).

Lemma endswith_length s suffix :
  Str.endswith s suffix = true → String.length suffix ≤ String.length s.
Proof.
  intros [stem ->]%endswith_app. rewrite length_append. lia.
Qed.

Lemma last4_endswith s suffix :
  String.length suffix = 4 →
  Str.endswith s suffix = true ↔ Str.last4 s = suffix.
Proof.
  intros Hlen. induction s as [|a r IH].
  - cbn [Str.endswith Str.last4].
    destruct (String.eqb_spec "" suffix) as [<-|Hne]; [done|].
    split; [done|]. by intros <-.
  - cbn [Str.endswith Str.last4].
    destruct (Nat.leb_spec 4 (String.length r)) as [Hlong|Hshort].
    + destruct (String.eqb_spec (String a r) suffix) as [<-|Hne]; [|done].
      simpl in Hlen. lia.
    + destruct (String.eqb_spec (String a r) suffix) as [<-|Hne]; [done|].
      split; [|done]. intros Hend%endswith_length. lia.
Qed.

Lemma append_snoc_inj (s1 s2 : string) a b :
  s1 +:+ String a "" = s2 +:+ String b "" → a = b.
Proof.
  revert s2. induction s1 as [|c s1 IH]; intros [|d s2]; rewrite ?append_cons.
  - by intros [= ->].
  - intros [= _ Heq]. by destruct s2.
  - intros [= _ Heq]. by destruct s1.
  - intros [= _ Heq]. by eapply IH.
Qed.

Lemma endswith_py_not_compiled stem :
  Str.endswith (stem +:+ ".py") ".pyc" = false
  ∧ Str.endswith (stem +:+ ".py") ".pyo" = false.
Proof.
  split.
  - destruct (Str.endswith _ ".pyc") eqn:Hend; [|done].
    apply endswith_app in Hend as [stem' Heq].
    change ".pyc" with (".py" +:+ "c") in Heq.
    change ".py" with (".p" +:+ "y") in Heq at 1.
    rewrite <- !string_app_assoc in Heq. by apply append_snoc_inj in Heq.
  - destruct (Str.endswith _ ".pyo") eqn:Hend; [|done].
    apply endswith_app in Hend as [stem' Heq].
    change ".pyo" with (".py" +:+ "o") in Heq.
    change ".py" with (".p" +:+ "y") in Heq at 1.
    rewrite <- !string_app_assoc in Heq. by apply append_snoc_inj in Heq.
Qed.

Lemma module_files_not_compiled h m p :
  p ∈ module_files h m →
  Str.endswith p ".pyc" = false ∧ Str.endswith p ".pyo" = false.
Proof.
  destruct m as [|[f|]]; cbn [module_files];
    [by intros ?%elem_of_nil| |by intros ?%elem_of_nil].
  destruct (String.eqb f ""); [by intros ?%elem_of_nil|].
  destruct (ascend h (S (String.length f)) f) as [g| |];
    [|by intros ?%elem_of_nil..].
  intros ->%list_elem_of_singleton. case_bool_decide as Hlast.
  - assert (Str.endswith g ".pyc" || Str.endswith g ".pyo" = true) as Hext.
    { apply orb_true_iff.
      apply elem_of_cons in Hlast as [Hc|Ho%list_elem_of_singleton].
      - left. by apply last4_endswith.
      - right. by apply last4_endswith. }
    destruct (drop_last_compiled g Hext) as (stem & _ & ->).
    apply endswith_py_not_compiled.
  - split.
    + destruct (Str.endswith g ".pyc") eqn:Hend; [|done].
      destruct Hlast. apply elem_of_cons. left. by apply last4_endswith.
    + destruct (Str.endswith g ".pyo") eqn:Hend; [|done].
      destruct Hlast. apply elem_of_cons. right.
      apply list_elem_of_singleton. by apply last4_endswith.
Qed.

Lemma ancestor_dirname n f : ancestor n (dirname f) = ancestor (S n) f.
Proof. unfold ancestor. by rewrite Nat.iter_succ_r. Qed.

(** The ascent stops at the nearest ancestor that is a file. *)
Lemma ascend_found_nearest h fuel f g :
  ascend h fuel f = Found g →
  ∃ k, g = ancestor k f ∧ path_isfile h g = true
       ∧ ∀ j, j < k → path_isfile h (ancestor j f) = false.
Proof.
  revert f. induction fuel as [|fuel IH]; intros f; cbn [ascend].
  - destruct (path_isfile h f) eqn:Hfile; [|done].
    intros [= <-]. exists 0. split_and!; [done..|]. intros j ?. lia.
  - destruct (path_isfile h f) eqn:Hfile.
    + intros [= <-]. exists 0. split_and!; [done..|]. intros j ?. lia.
    + destruct (String.eqb (dirname f) f); [done|].
      intros (k & -> & Hg & Hnone)%IH. exists (S k).
      rewrite <- ancestor_dirname. split_and!; [done..|].
      intros [|j] Hj; [done|]. rewrite <- ancestor_dirname. apply Hnone. lia.
Qed.

(** The ascent gives up only when no ancestor at all is a file. *)
Lemma ascend_dropped h fuel f :
  ascend h fuel f = Dropped → ∀ k, path_isfile h (ancestor k f) = false.
Proof.
  revert f. induction fuel as [|fuel IH]; intros f; cbn [ascend].
  - by destruct (path_isfile h f).
  - destruct (path_isfile h f) eqn:Hfile; [done|].
    destruct (String.eqb_spec (dirname f) f) as [Hfix|Hne].
    + intros _ k. induction k as [|k IHk]; [done|].
      by rewrite <- ancestor_dirname, Hfix.
    + intros Hdrop [|k]; [done|]. rewrite <- ancestor_dirname. by apply IH.
Qed.

End builder_more.

(** X7: [_iter_module_files] never yields the name of a compiled
    artifact: no yielded path ends in ".pyc" or ".pyo". *)
Theorem X7_iter_module_files_no_compiled (h : Host) :
  Forall (λ p, Str.endswith p ".pyc" = false ∧ Str.endswith p ".pyo" = false)
         (_iter_module_files h).
Proof.
  apply Forall_forall. intros p [m [_ Hp]]%list_elem_of_In%in_flat_map.
  apply list_elem_of_In in Hp. by eapply module_files_not_compiled.
Qed.

(** X8: for a module whose [__file__] is [filename], the path yielded
    comes from the nearest existing file among [filename],
    [dirname(filename)], [dirname(dirname(filename))], ...: every closer
    candidate is not a file; and nothing is yielded exactly when
    [filename] is empty or none of these candidates is a file. *)
Theorem X8_module_file_is_nearest_file (h : Host) (filename : string) :
  (∀ p, p ∈ module_files h (Module (Some filename)) →
        ∃ k, path_isfile h (ancestor k filename) = true
             ∧ (∀ j, j < k → path_isfile h (ancestor j filename) = false)
             ∧ p = if bool_decide (Str.last4 (ancestor k filename)
                                   ∈ [".pyc"; ".pyo"])
                   then Str.drop_last (ancestor k filename)
                   else ancestor k filename)
  ∧ (module_files h (Module (Some filename)) = []
     ↔ filename = ""
       ∨ ∀ k, path_isfile h (ancestor k filename) = false).
Proof.
  cbn [module_files].
  destruct (String.eqb_spec filename "") as [->|Hne].
  - split; [by intros p ?%elem_of_nil|]. split; [by left|done].
  - pose proof (ascend_finishes h (S (String.length filename)) filename) as Hfin.
    destruct (ascend h (S (String.length filename)) filename) as [g| |] eqn:Hasc.
    + apply ascend_found_nearest in Hasc as (k & -> & Hfile & Hnone).
      split.
      * intros p ->%list_elem_of_singleton. by exists k.
      * split; [done|]. intros [?|Hall]; [done|]. congruence.
    + split; [by intros p ?%elem_of_nil|]. split; [|done].
      intros _. right. by eapply ascend_dropped.
    + destruct Hfin; [lia|done].
Qed.

(** ** Poll Detector *)

Section poll_more.
Context (h : Host).
Implicit Types (files seen : list string) (f g : string).
Implicit Types (m : gmap string Z).

(** An entry the scan adds belongs to a path it passed to [os.stat]. *)
Lemma scan_lookup_seen files m f :
  let '(seen, m', _) := scan h files m in
  m' !! f = m !! f
  ∨ (m !! f = None ∧ m' !! f = stat_mtime h f ∧ f ∈ seen).
Proof.
  revert m. induction files as [|g files IH]; intros m; [by left|].
  destruct (decide (changed h m g)) as [Hch|Hsame].
  - rewrite scan_cons_changed by done. by left.
  - rewrite scan_cons_unchanged by done. specialize (IH (observe h m g)).
    destruct (scan h files (observe h m g)) as [[seen0 m0] hit].
    unfold observe in IH.
    destruct (stat_mtime h g) as [mtime|] eqn:Hstat;
      [|destruct IH as [?|(? & ? & ?)]; [by left|right; by split_and!; [..|right]]].
    destruct (m !! g) as [old_time|] eqn:Hold;
      [destruct IH as [?|(? & ? & ?)]; [by left|right; by split_and!; [..|right]]|].
    destruct (decide (g = f)) as [->|Hne].
    + rewrite lookup_insert_eq in IH. right.
      split_and!; [done| |left].
      destruct IH as [->|[[=] _]]. by rewrite Hstat.
    + rewrite lookup_insert_ne in IH by done.
      destruct IH as [?|(? & ? & ?)]; [by left|right; by split_and!; [..|right]].
Qed.

(** After a scan that did not stop, no path of the scan has a
    modification time above its baseline. *)
Lemma scan_none_unchanged files m seen m' :
  scan h files m = (seen, m', None) → ∀ f, f ∈ files → ¬ changed h m' f.
Proof.
  revert m seen. induction files as [|g files IH]; intros m seen Hscan f Hf.
  - by apply elem_of_nil in Hf.
  - destruct (decide (changed h m g)) as [Hch|Hsame];
      [by rewrite scan_cons_changed in Hscan|].
    rewrite scan_cons_unchanged in Hscan by done.
    pose proof (scan_lookup h files (observe h m g) g) as Hlook.
    destruct (scan h files (observe h m g)) as [[seen0 m0] hit] eqn:Hrest.
    injection Hscan as <- <- ->. simpl in Hlook.
    apply elem_of_cons in Hf as [->|Hf]; [|by eapply IH].
    intros (old_time & mtime & Hold & Hstat & Hlt).
    unfold observe in Hlook. rewrite Hstat in Hlook.
    destruct (m !! g) as [b|] eqn:Hb.
    + destruct Hlook as [Hkeep|[? _]]; [|congruence].
      apply Hsame. exists b, mtime. split_and!; [done..|]. congruence.
    + rewrite lookup_insert_eq in Hlook.
      destruct Hlook as [Hkeep|[[=] _]]. assert (old_time = mtime) by congruence.
      lia.
Qed.

(** A scan over paths that all have up-to-date baselines changes nothing. *)
Lemma scan_quiet files m :
  (∀ f, f ∈ files → ¬ changed h m f) →
  (∀ f, f ∈ files → is_Some (stat_mtime h f) → is_Some (m !! f)) →
  scan h files m = (files, m, None).
Proof.
  induction files as [|g files IH]; intros Hsame Hbase; [done|].
  rewrite scan_cons_unchanged by (apply Hsame; left).
  assert (observe h m g = m) as ->.
  { unfold observe. destruct (stat_mtime h g) as [t|] eqn:Hstat; [|done].
    destruct (Hbase g) as [b ->]; [left|by rewrite Hstat|done]. }
  rewrite IH; [done|..].
  - intros f Hf. apply Hsame. by right.
  - intros f Hf. apply Hbase. by right.
Qed.

End poll_more.

(** X10: a tick of the Poll Detector never changes or removes a baseline:
    every entry of the table is the same after the tick, and an entry
    that is new holds the current modification time of a path the tick
    passed to [os.stat]. *)
Theorem X10_poll_baselines_are_kept (h : Host) (r : Reloader)
    (mtimes : gmap string Z) (f : string) :
  let tick := StatReloader_run h r mtimes in
  (∀ t, mtimes !! f = Some t → st_mtimes tick !! f = Some t)
  ∧ (st_mtimes tick !! f = mtimes !! f
     ∨ (mtimes !! f = None ∧ st_mtimes tick !! f = stat_mtime h f
        ∧ f ∈ st_seen tick)).
Proof.
  intros tick.
  pose proof (StatReloader_run_scan h r mtimes) as Hscan.
  fold tick in Hscan. simpl in Hscan.
  pose proof (scan_lookup_seen h (_iter_module_files h ++ extra_files r)
                mtimes f) as Hlook.
  rewrite Hscan in Hlook. split; [|done].
  intros t Ht. destruct Hlook as [->|[? _]]; congruence.
Qed.

(** X11: the first tick of a fresh Poll Detector (empty table) never
    triggers, whatever the file system holds: it passes every path to
    [os.stat], goes to sleep, and leaves as table the current
    modification time of exactly the paths whose [os.stat] succeeded. *)
Theorem X11_poll_first_tick_only_records (h : Host) (r : Reloader) :
  let files := _iter_module_files h ++ extra_files r in
  let tick := StatReloader_run h r ∅ in
  st_trigger tick = None
  ∧ st_seen tick = files
  ∧ st_logged tick = []
  ∧ st_outcome tick = sleep h r
  ∧ ∀ f, st_mtimes tick !! f
         = if decide (f ∈ files) then stat_mtime h f else None.
Proof.
  intros files tick.
  pose proof (StatReloader_run_scan h r ∅) as Hscan.
  fold files tick in Hscan. simpl in Hscan.
  assert (st_trigger tick = None) as Hnone.
  { destruct (st_trigger tick) as [g|] eqn:Hhit; [|done].
    pose proof (scan_lookup h files ∅ g) as Hlook.
    rewrite Hscan in Hlook. simpl in Hlook.
    apply scan_hit in Hscan
      as (pre & post & _ & _ & _ & old_time & mtime & Hold & Hstat & Hlt).
    rewrite lookup_empty in Hlook.
    destruct Hlook as [?|[_ Hnew]]; [congruence|].
    assert (old_time = mtime) by congruence. lia. }
  rewrite Hnone in Hscan.
  assert (st_seen tick = files) as Hseen by (by eapply scan_no_hit).
  split_and!; [done|done| | |].
  - unfold tick, StatReloader_run in *. fold files in Hnone |- *.
    destruct (scan h files ∅) as [[seen m] [g|]]; [|done].
    by destruct (log_reload h g).
  - unfold tick, StatReloader_run in *. fold files in Hnone |- *.
    destruct (scan h files ∅) as [[seen m] [g|]]; [|done].
    by destruct (log_reload h g).
  - intros f.
    pose proof (scan_lookup_seen h files ∅ f) as Hlook.
    pose proof (scan_records h files ∅ f) as Hrec.
    rewrite Hscan in Hlook, Hrec. rewrite lookup_empty in Hlook.
    rewrite Hseen in Hlook, Hrec.
    destruct (decide (f ∈ files)) as [Hin|Hnotin].
    + destruct (stat_mtime h f) as [t|] eqn:Hstat.
      * destruct (Hrec t Hin eq_refl) as [b Hb].
        destruct Hlook as [?|(_ & ? & _)]; congruence.
      * destruct Hlook as [?|(_ & ? & _)]; congruence.
    + destruct Hlook as [?|(_ & _ & ?)]; done.
Qed.

(** X12: a path of the scan, module file or extra file, that has a
    baseline and a strictly greater modification time makes the tick
    trigger: [trigger_reload] is called for a path that changed, and on
    an open loop the process exits with the sentinel code. *)
Theorem X12_poll_change_is_detected (h : Host) (r : Reloader)
    (mtimes : gmap string Z) (f : string) (old_time mtime : Z) :
  f ∈ _iter_module_files h ∨ f ∈ extra_files r →
  mtimes !! f = Some old_time → stat_mtime h f = Some mtime →
  (old_time < mtime)%Z →
  let tick := StatReloader_run h r mtimes in
  (∃ g, st_trigger tick = Some g ∧ changed h (st_mtimes tick) g)
  ∧ (loop_closed h = false → st_outcome tick = Exit EXIT_CODE).
Proof.
  intros Hf Hold Hstat Hlt tick.
  pose proof (StatReloader_run_scan h r mtimes) as Hscan.
  fold tick in Hscan. simpl in Hscan.
  assert (∃ g, st_trigger tick = Some g) as [g Hg].
  { destruct (st_trigger tick) as [g|] eqn:Hhit; [by exists g|]. exfalso.
    pose proof (scan_lookup h (_iter_module_files h ++ extra_files r)
                  mtimes f) as Hlook.
    rewrite Hscan in Hlook. simpl in Hlook.
    apply (scan_none_unchanged h _ _ _ _ Hscan f); [by apply elem_of_app|].
    exists old_time, mtime. split_and!; [|done..].
    destruct Hlook as [->|[? _]]; congruence. }
  split.
  - exists g. split; [done|]. rewrite Hg in Hscan.
    by apply scan_hit in Hscan as (pre & post & _ & _ & _ & Hch).
  - intros Hopen. unfold tick, StatReloader_run in *.
    destruct (scan h _ mtimes) as [[seen m] [g'|]]; [|done].
    unfold log_reload. by rewrite Hopen.
Qed.

Lemma X12_poll_change_is_detected_witness :
  let r := Reloader_init demo_host ["/srv/app/util.py"] Omitted in
  let mtimes : gmap string Z := {[ "/srv/app/util.py" := 50%Z ]} in
  let tick := StatReloader_run demo_host r mtimes in
  (50 < 100)%Z
  ∧ (∃ g, st_trigger tick = Some g ∧ changed demo_host (st_mtimes tick) g)
  ∧ (loop_closed demo_host = false → st_outcome tick = Exit EXIT_CODE).
Proof.
  intros r mtimes tick. split; [done|].
  apply (X12_poll_change_is_detected demo_host r mtimes "/srv/app/util.py"
           50%Z 100%Z).
  - right. apply (bool_decide_unpack _). vm_compute. reflexivity.
  - reflexivity.
  - reflexivity.
  - done.
Defined.

(** X13: a tick that did not trigger leaves a table on which the next
    tick over the same file system does not trigger either and changes
    nothing: without a change on disk the Poll Detector stays quiet. *)
Theorem X13_poll_quiet_without_change (h : Host) (r : Reloader)
    (mtimes : gmap string Z) :
  st_trigger (StatReloader_run h r mtimes) = None →
  let tick := StatReloader_run h r mtimes in
  let next := StatReloader_run h r (st_mtimes tick) in
  st_trigger next = None
  ∧ st_mtimes next = st_mtimes tick
  ∧ st_outcome next = sleep h r.
Proof.
  intros Hnone tick next.
  pose proof (StatReloader_run_scan h r mtimes) as Hscan.
  fold tick in Hscan, Hnone. simpl in Hscan. rewrite Hnone in Hscan.
  set (files := _iter_module_files h ++ extra_files r) in *.
  assert (scan h files (st_mtimes tick) = (files, st_mtimes tick, None))
    as Hquiet.
  { apply scan_quiet.
    - by eapply scan_none_unchanged.
    - intros f Hf [t Ht].
      pose proof (scan_records h files mtimes f t) as Hrec.
      rewrite Hscan in Hrec. apply Hrec; [|done].
      by rewrite (scan_no_hit h _ _ _ _ Hscan). }
  unfold next, StatReloader_run. fold files. by rewrite Hquiet.
Qed.

Lemma X13_poll_quiet_without_change_witness :
  let r := Reloader_init demo_host ["/srv/app/settings.cfg"] Omitted in
  let tick := StatReloader_run demo_host r ∅ in
  let next := StatReloader_run demo_host r (st_mtimes tick) in
  st_trigger tick = None
  ∧ st_trigger next = None
  ∧ st_mtimes next = st_mtimes tick
  ∧ st_outcome next = sleep demo_host r.
Proof.
  intros r tick next.
  assert (st_trigger tick = None) as Hnone by (vm_compute; reflexivity).
  split; [exact Hnone|].
  exact (X13_poll_quiet_without_change demo_host r ∅ Hnone).
Defined.

(** X14: once the loop is closed a tick of the Poll Detector neither
    exits nor schedules another tick and logs nothing, even when a path
    changed. *)
Theorem X14_poll_closed_loop_is_inert (h : Host) (r : Reloader)
    (mtimes : gmap string Z) :
  loop_closed h = true →
  let tick := StatReloader_run h r mtimes in
  st_outcome tick = Idle ∧ st_logged tick = [].
Proof.
  intros Hclosed tick. unfold tick, StatReloader_run.
  destruct (scan h _ mtimes) as [[seen m] [g|]].
  - unfold log_reload. by rewrite Hclosed.
  - unfold sleep. by rewrite Hclosed.
Qed.

Lemma X14_poll_closed_loop_is_inert_witness :
  let r := Reloader_init closed_host [] Omitted in
  let tick :=
    StatReloader_run closed_host r {[ "/srv/app/util.py" := 50%Z ]} in
  loop_closed closed_host = true
  ∧ st_trigger tick = Some "/srv/app/util.py"
  ∧ st_outcome tick = Idle ∧ st_logged tick = [].
Proof.
  intros r tick. split; [reflexivity|]. split; [by vm_compute|].
  apply (X14_poll_closed_loop_is_inert closed_host r
           {[ "/srv/app/util.py" := 50%Z ]}).
  reflexivity.
Defined.

(** ** Event Detector *)

Section event_more.
Context (r : Reloader).
Implicit Types (h : Host) (w : Watchdog) (paths : list string) (d : string).
Implicit Types (table : gmap string (option watch)) (td : gset string).

Lemma register_no_unschedule h paths table td hdl :
  let '(calls, _, _) := register h paths table td in Unschedule hdl ∉ calls.
Proof.
  revert table td. induction paths as [|path rest IH]; intros table td.
  - cbn [register]. apply not_elem_of_nil.
  - cbn [register]. case_bool_decide.
    + specialize (IH (<[path := schedule_result h path]> table) (td ∖ {[path]})).
      destruct (register h rest _ _) as [[calls' table'] td'].
      intros [Hin|Hin]%elem_of_app; [|done].
      by apply list_elem_of_singleton in Hin.
    + specialize (IH table (td ∖ {[path]})).
      destruct (register h rest _ _) as [[calls' table'] td'].
      intros [Hin|Hin]%elem_of_app; [|done]. by apply elem_of_nil in Hin.
Qed.

Lemma unregister_calls tdl table hdl :
  let '(calls, _) := unregister tdl table in
  Unschedule hdl ∈ calls ↔ ∃ d, d ∈ tdl ∧ table !! d = Some (Some hdl).
Proof.
  revert table. induction tdl as [|path rest IH]; intros table.
  - cbn [unregister]. split; [by intros ?%elem_of_nil|].
    by intros (d & ?%elem_of_nil & _).
  - cbn [unregister]. specialize (IH (delete path table)).
    destruct (unregister rest (delete path table)) as [calls' table'].
    rewrite elem_of_app, IH. split.
    + intros [Hin|(d & Hd & Hlook)].
      * exists path. split; [left|].
        destruct (table !! path) as [[hdl'|]|]; simpl in Hin;
          [|by apply elem_of_nil in Hin..].
        apply list_elem_of_singleton in Hin. congruence.
      * exists d. split; [by right|].
        destruct (decide (d = path)) as [->|Hne].
        -- by rewrite lookup_delete_eq in Hlook.
        -- by rewrite lookup_delete_ne in Hlook.
    + intros (d & Hd & Hlook).
      destruct (decide (d = path)) as [->|Hne].
      * left. rewrite Hlook. simpl. left.
      * right. exists d. apply elem_of_cons in Hd as [?|Hd]; [done|].
        split; [done|]. by rewrite lookup_delete_ne.
Qed.

(** What a tick that is neither exiting nor on a closed loop does. *)
Lemma Watchdog_run_on_full h w paths :
  should_reload w = false → loop_closed h = false →
  let '(calls, w', o) := Watchdog_run_on h r w paths in
  (∀ d, watches w' !! d
        = if decide (d ∈ paths)
          then (if decide (watches w !! d = None)
                then Some (schedule_result h d) else watches w !! d)
          else None)
  ∧ (∀ d, Schedule d ∈ calls ↔ d ∈ paths ∧ watches w !! d = None)
  ∧ (∀ hdl, Unschedule hdl ∈ calls
           ↔ ∃ d, (d ∉ paths) ∧ watches w !! d = Some (Some hdl))
  ∧ observable_paths w' = paths
  ∧ should_reload w' = false
  ∧ o = Scheduled (interval r).
Proof.
  intros Hflag Hopen. unfold Watchdog_run_on. rewrite Hflag, Hopen.
  pose proof (register_spec h paths (watches w) (dom (watches w))) as Hreg.
  pose proof (λ hdl, register_no_unschedule h paths (watches w)
                      (dom (watches w)) hdl) as Hnoun.
  destruct (register h paths (watches w) (dom (watches w)))
    as [[calls table] td].
  destruct Hreg as (Hcalls & Hlook & ->).
  set (stale := elements (dom (watches w) ∖ list_to_set paths)).
  assert (∀ d, d ∈ stale ↔ is_Some (watches w !! d) ∧ d ∉ paths) as Hstale.
  { intros d. unfold stale.
    rewrite elem_of_elements, elem_of_difference, elem_of_dom,
      elem_of_list_to_set. done. }
  pose proof (unregister_spec stale table) as Hun.
  pose proof (λ hdl, unregister_calls stale table hdl) as Huncalls.
  destruct (unregister stale table) as [calls' table'].
  destruct Hun as [Hnosched Hlook']. simpl. split_and!.
  - intros d. rewrite Hlook', Hlook.
    destruct (decide (d ∈ paths)) as [Hin|Hnotin].
    + rewrite decide_False by (rewrite Hstale; tauto).
      destruct (decide (watches w !! d = None)).
      * by rewrite decide_True.
      * rewrite decide_False; [done|]. tauto.
    + destruct (decide (d ∈ stale)) as [?|Hns]; [done|].
      rewrite decide_False by tauto.
      destruct (watches w !! d) eqn:Hd; [|done].
      destruct Hns. apply Hstale. by rewrite Hd.
  - intros d. rewrite elem_of_app, Hcalls. split; [|tauto].
    intros [?|Hin]; [done|]. by apply Hnosched in Hin.
  - intros hdl. rewrite elem_of_app, Huncalls. split.
    + intros [Hin|(d & [_ Hd]%Hstale & Hhdl)]; [by apply Hnoun in Hin|].
      exists d. split; [done|]. rewrite Hlook in Hhdl.
      by rewrite decide_False in Hhdl by tauto.
    + intros (d & Hd & Hhdl). right. exists d. split.
      * apply Hstale. by rewrite Hhdl.
      * rewrite Hlook. by rewrite decide_False by tauto.
  - done.
  - done.
  - unfold sleep. by rewrite Hopen.
Qed.

Lemma check_modification_observable h w filename :
  observable_paths (check_modification h r w filename).2 = observable_paths w.
Proof.
  destruct (loop_closed h) eqn:Hclosed.
  - by rewrite check_modification_closed.
  - rewrite check_modification_open by done. simpl.
    by destruct (reload_requests r w filename).
Qed.

Lemma check_modification_flag h w filename :
  should_reload (check_modification h r w filename).2
  = should_reload w
    || (negb (loop_closed h)
        && negb (bool_decide (reload_requests r w filename = []))).
Proof.
  destruct (loop_closed h) eqn:Hclosed.
  - rewrite check_modification_closed by done. simpl. by rewrite orb_false_r.
  - rewrite check_modification_open by done. simpl.
    destruct (reload_requests r w filename); simpl.
    + by rewrite orb_false_r.
    + by rewrite orb_true_r.
Qed.

Lemma reload_requests_observable w w' filename :
  observable_paths w' = observable_paths w →
  reload_requests r w' filename = reload_requests r w filename.
Proof. unfold reload_requests. by intros ->. Qed.

End event_more.

(** X15: a notification changes nothing of the Event Detector but the
    reload flag, and neither a notification nor a tick ever clears that
    flag: the watch table and the observed roots are as before, and the
    flag is the old one or raised. *)
Theorem X15_reload_flag_is_never_cleared (h : Host) (r : Reloader)
    (w : Watchdog) (filename : string) (paths : list string) :
  let notified := (check_modification h r w filename).2 in
  let ticked := (Watchdog_run_on h r w paths).1.2 in
  watches notified = watches w
  ∧ observable_paths notified = observable_paths w
  ∧ (should_reload w = true → should_reload notified = true)
  ∧ should_reload ticked = should_reload w.
Proof.
  intros notified ticked. split_and!.
  - apply check_modification_watches.
  - apply check_modification_observable.
  - intros Hflag. unfold notified.
    by rewrite check_modification_flag, Hflag.
  - unfold ticked, Watchdog_run_on.
    destruct (should_reload w) eqn:Hflag; [done|].
    destruct (loop_closed h); [done|].
    destruct (register h paths _ _) as [[calls table] td].
    by destruct (unregister _ table).
Qed.

(** X16: a notification, received while the loop is open, about an extra
    file, or about a ".py", ".pyc" or ".pyo" path whose directory starts
    with an observed root, makes the next tick exit with the sentinel
    code before it touches the observer or the watch table, whatever the
    host looks like by then. *)
Theorem X16_notified_change_exits_on_next_tick (h h' : Host) (r : Reloader)
    (w : Watchdog) (filename : string) (paths : list string) :
  loop_closed h = false →
  filename ∈ extra_files r
  ∨ (startswith_any (dirname filename) (observable_paths w) = true
     ∧ (Str.endswith filename ".py" = true
        ∨ Str.endswith filename ".pyc" = true
        ∨ Str.endswith filename ".pyo" = true)) →
  let w' := (check_modification h r w filename).2 in
  should_reload w' = true
  ∧ Watchdog_run_on h' r w' paths = ([], w', Exit EXIT_CODE).
Proof.
  intros Hopen Hrelevant w'.
  assert (reload_requests r w filename ≠ []) as Hreq.
  { unfold reload_requests.
    destruct Hrelevant as [Hextra|[Hunder Hext]].
    - by rewrite bool_decide_eq_true_2.
    - rewrite Hunder.
      destruct (Str.endswith filename ".pyc" || Str.endswith filename ".pyo")
        eqn:Hcompiled; [by destruct (bool_decide _)|].
      apply orb_false_iff in Hcompiled as [Hc Ho].
      destruct Hext as [->|[?|?]]; [|congruence..].
      by destruct (bool_decide _). }
  assert (should_reload w' = true) as Hflag.
  { unfold w'. rewrite check_modification_flag, Hopen.
    rewrite bool_decide_eq_false_2 by done. apply orb_true_r. }
  split; [done|]. unfold Watchdog_run_on. by rewrite Hflag.
Qed.

Lemma X16_notified_change_exits_on_next_tick_witness :
  let r := Reloader_init demo_host ["/srv/app/settings.cfg"] Omitted in
  let w := {| observable_paths := ["/srv/app"]; watches := ∅;
              should_reload := false |} in
  let w' := (check_modification demo_host r w "/srv/app/settings.cfg").2 in
  loop_closed demo_host = false
  ∧ should_reload w' = true
  ∧ Watchdog_run_on closed_host r w' ["/srv/app"] = ([], w', Exit EXIT_CODE).
Proof.
  intros r w w'. split; [reflexivity|].
  apply (X16_notified_change_exits_on_next_tick demo_host closed_host r w
           "/srv/app/settings.cfg" ["/srv/app"]).
  - reflexivity.
  - left. apply (bool_decide_unpack _). vm_compute. reflexivity.
Defined.

(** X17: a notification about a path that is no extra file and either
    lies in no directory starting with an observed root or ends in none
    of ".py", ".pyc", ".pyo" is ignored: nothing is logged and the
    detector is unchanged. *)
Theorem X17_irrelevant_notification_is_ignored (h : Host) (r : Reloader)
    (w : Watchdog) (filename : string) :
  filename ∉ extra_files r →
  startswith_any (dirname filename) (observable_paths w) = false
  ∨ (Str.endswith filename ".py" = false
     ∧ Str.endswith filename ".pyc" = false
     ∧ Str.endswith filename ".pyo" = false) →
  check_modification h r w filename = ([], w).
Proof.
  intros Hextra Hirrelevant. unfold check_modification.
  assert (reload_requests r w filename = []) as ->; [|done].
  unfold reload_requests. rewrite bool_decide_eq_false_2 by done.
  destruct Hirrelevant as [->|(-> & -> & ->)]; [done|].
  by destruct (startswith_any _ _).
Qed.

Lemma X17_irrelevant_notification_is_ignored_witness :
  let r := Reloader_init demo_host ["/srv/app/settings.cfg"] Omitted in
  let w := {| observable_paths := ["/srv/app"]; watches := ∅;
              should_reload := false |} in
  ("/srv/app/static/site.css" ∉ extra_files r)
  ∧ check_modification demo_host r w "/srv/app/static/site.css" = ([], w).
Proof.
  intros r w.
  assert ("/srv/app/static/site.css" ∉ extra_files r) as Hextra
    by (apply (bool_decide_unpack _); vm_compute; reflexivity).
  split; [exact Hextra|].
  apply (X17_irrelevant_notification_is_ignored demo_host r w
           "/srv/app/static/site.css" Hextra).
  right. by vm_compute.
Defined.

(** X18: after a tick that neither exits nor finds the loop closed, the
    watch table has an entry for exactly the desired roots: entries of
    roots no longer desired are gone, entries of roots that were already
    there are untouched, new ones hold what the registration returned;
    the observed roots are the desired ones and the next tick is
    scheduled. *)
Theorem X18_tick_syncs_watch_table (h : Host) (r : Reloader) (w : Watchdog)
    (paths : list string) :
  should_reload w = false → loop_closed h = false →
  let '(calls, w', o) := Watchdog_run_on h r w paths in
  (∀ d, is_Some (watches w' !! d) ↔ d ∈ paths)
  ∧ (∀ d, d ∈ paths → is_Some (watches w !! d) →
          watches w' !! d = watches w !! d)
  ∧ (∀ d, d ∈ paths → watches w !! d = None →
          watches w' !! d = Some (schedule_result h d))
  ∧ observable_paths w' = paths
  ∧ o = Scheduled (interval r).
Proof.
  intros Hflag Hopen.
  pose proof (Watchdog_run_on_full r h w paths Hflag Hopen) as Hfull.
  destruct (Watchdog_run_on h r w paths) as [[calls w'] o].
  destruct Hfull as (Hlook & _ & _ & Hobs & _ & Ho).
  split_and!; [| | |done|done].
  - intros d. rewrite Hlook. destruct (decide (d ∈ paths)) as [Hin|Hnotin].
    + split; [done|]. intros _.
      destruct (decide (watches w !! d = None)) as [|Hsome]; [done|].
      by destruct (watches w !! d).
    + split; [by intros [? ?]|done].
  - intros d Hd [x Hx]. rewrite Hlook, decide_True by done.
    rewrite decide_False; [done|]. by rewrite Hx.
  - intros d Hd Hnone. rewrite Hlook, decide_True by done.
    by rewrite decide_True.
Qed.

Lemma X18_tick_syncs_watch_table_witness :
  let r := Reloader_init demo_host [] Omitted in
  let w := {| observable_paths := ["/tmp/old"];
              watches := {[ "/tmp/old" := Some (ObservedWatch "/tmp/old" true) ]};
              should_reload := false |} in
  let paths := ["/srv/app"; "/usr/lib/python3"] in
  loop_closed demo_host = false
  ∧ let '(calls, w', o) := Watchdog_run_on demo_host r w paths in
    (∀ d, is_Some (watches w' !! d) ↔ d ∈ paths)
    ∧ (∀ d, d ∈ paths → is_Some (watches w !! d) →
            watches w' !! d = watches w !! d)
    ∧ (∀ d, d ∈ paths → watches w !! d = None →
            watches w' !! d = Some (schedule_result demo_host d))
    ∧ observable_paths w' = paths
    ∧ o = Scheduled (interval r).
Proof.
  intros r w paths. split; [reflexivity|].
  apply (X18_tick_syncs_watch_table demo_host r w paths); reflexivity.
Defined.

(** X19: a tick whose desired roots are exactly the keys of the watch
    table makes no call to the observer and leaves the table as it is:
    once the table is in sync, ticks cause no registration churn. *)
Theorem X19_tick_in_sync_calls_nothing (h : Host) (r : Reloader)
    (w : Watchdog) (paths : list string) :
  should_reload w = false → loop_closed h = false →
  (∀ d, is_Some (watches w !! d) ↔ d ∈ paths) →
  let '(calls, w', o) := Watchdog_run_on h r w paths in
  calls = [] ∧ watches w' = watches w.
Proof.
  intros Hflag Hopen Hsync.
  pose proof (Watchdog_run_on_full r h w paths Hflag Hopen) as Hfull.
  destruct (Watchdog_run_on h r w paths) as [[calls w'] o].
  destruct Hfull as (Hlook & Hsched & Hunsched & _). split.
  - apply elem_of_nil_inv. intros [d|hdl].
    + rewrite Hsched. intros [Hd Hnone]. apply Hsync in Hd as [x Hx].
      congruence.
    + rewrite Hunsched. intros (d & Hd & Hx). apply Hd, Hsync.
      by rewrite Hx.
  - apply map_eq. intros d. rewrite Hlook.
    destruct (decide (d ∈ paths)) as [Hd|Hd].
    + apply Hsync in Hd as [x Hx]. rewrite decide_False; [done|].
      by rewrite Hx.
    + destruct (watches w !! d) eqn:Hx; [|done].
      destruct Hd. apply Hsync. by rewrite Hx.
Qed.

Lemma X19_tick_in_sync_calls_nothing_witness :
  let r := Reloader_init demo_host [] Omitted in
  let w := {| observable_paths := ["/srv/app"];
              watches := {[ "/srv/app" := None ]};
              should_reload := false |} in
  (∀ d, is_Some (watches w !! d) ↔ d ∈ ["/srv/app"])
  ∧ let '(calls, w', o) := Watchdog_run_on demo_host r w ["/srv/app"] in
    calls = [] ∧ watches w' = watches w.
Proof.
  intros r w.
  assert (∀ d, is_Some (watches w !! d) ↔ d ∈ ["/srv/app"]) as Hsync.
  { intros d. rewrite list_elem_of_singleton. unfold w. cbn [watches].
    destruct (decide (d = "/srv/app")) as [->|Hne].
    - by rewrite lookup_singleton_eq.
    - rewrite lookup_singleton_ne by done. split; [by intros [? ?]|done]. }
  split; [exact Hsync|].
  exact (X19_tick_in_sync_calls_nothing demo_host r w ["/srv/app"]
           eq_refl eq_refl Hsync).
Defined.

(** X20: a tick unschedules exactly the watches of roots that are no
    longer desired: a handle is passed to [observer.unschedule] if and
    only if the table held it for a root outside the desired ones; the
    null placeholder of a failed registration is never unscheduled, and
    a root is scheduled if and only if it is desired and was not in the
    table. *)
Theorem X20_tick_unschedules_stale_watches (h : Host) (r : Reloader)
    (w : Watchdog) (paths : list string) :
  should_reload w = false → loop_closed h = false →
  let '(calls, w', o) := Watchdog_run_on h r w paths in
  (∀ hdl, Unschedule hdl ∈ calls
          ↔ ∃ d, (d ∉ paths) ∧ watches w !! d = Some (Some hdl))
  ∧ (∀ d, Schedule d ∈ calls ↔ d ∈ paths ∧ watches w !! d = None)
  ∧ (∀ d, (d ∉ paths) → watches w' !! d = None).
Proof.
  intros Hflag Hopen.
  pose proof (Watchdog_run_on_full r h w paths Hflag Hopen) as Hfull.
  destruct (Watchdog_run_on h r w paths) as [[calls w'] o].
  destruct Hfull as (Hlook & Hsched & Hunsched & _).
  split_and!; [done|done|].
  intros d Hd. by rewrite Hlook, decide_False.
Qed.

Lemma X20_tick_unschedules_stale_watches_witness :
  let r := Reloader_init demo_host [] Omitted in
  let w := {| observable_paths := ["/tmp/old"; "/tmp/broken"];
              watches := {[ "/tmp/old" := Some (ObservedWatch "/tmp/old" true);
                            "/tmp/broken" := None ]};
              should_reload := false |} in
  let paths := ["/srv/app"] in
  loop_closed demo_host = false
  ∧ let '(calls, w', o) := Watchdog_run_on demo_host r w paths in
    (∀ hdl, Unschedule hdl ∈ calls
            ↔ ∃ d, (d ∉ paths) ∧ watches w !! d = Some (Some hdl))
    ∧ (∀ d, Schedule d ∈ calls ↔ d ∈ paths ∧ watches w !! d = None)
    ∧ (∀ d, (d ∉ paths) → watches w' !! d = None).
Proof.
  intros r w paths. split; [reflexivity|].
  apply (X20_tick_unschedules_stale_watches demo_host r w paths); reflexivity.
Defined.

(** X21: the handler checks every path of an event, both the old and the
    new path of a move: while the loop is open the reload flag is raised
    after the event exactly when it was raised before or one of the
    event's paths warrants a [trigger_reload] call; the watch table and
    the observed roots are never changed by an event. *)
Theorem X21_handler_checks_every_path (h : Host) (r : Reloader)
    (w : Watchdog) (e : fs_event) :
  let w' := (dispatch h r w e).2 in
  watches w' = watches w
  ∧ observable_paths w' = observable_paths w
  ∧ (loop_closed h = false →
     should_reload w' = true
     ↔ should_reload w = true
       ∨ ∃ f, f ∈ event_paths e ∧ reload_requests r w f ≠ [])
  ∧ (loop_closed h = true → dispatch h r w e = ([], w)).
Proof.
  intros w'. unfold w'. clear w'.
  assert (∀ f, loop_closed h = false →
               should_reload (check_modification h r w f).2 = true
               ↔ should_reload w = true ∨ reload_requests r w f ≠ []) as Hone.
  { intros f Hopen. rewrite check_modification_flag, Hopen. simpl.
    rewrite orb_true_iff, negb_true_iff, bool_decide_eq_false. done. }
  destruct e as [src|src|src dest|src]; cbn [dispatch event_paths].
  1, 2, 4:
    split_and!;
    [apply check_modification_watches
    |apply check_modification_observable
    |intros Hopen; rewrite (Hone src Hopen);
     split; (intros [?|Hreq]; [by left|right]);
     [by exists src; split; [left|]
     |destruct Hreq as (f & Hf & ?);
      apply list_elem_of_singleton in Hf; by subst f]
    |intros Hclosed; by apply check_modification_closed].
  pose proof (check_modification_watches r h w src) as Hw1.
  pose proof (check_modification_observable r h w src) as Ho1.
  pose proof (check_modification_flag r h w src) as Hf1.
  destruct (check_modification h r w src) as [logged w1] eqn:Hsrc.
  simpl in Hw1, Ho1, Hf1.
  pose proof (check_modification_watches r h w1 dest) as Hw2.
  pose proof (check_modification_observable r h w1 dest) as Ho2.
  pose proof (check_modification_flag r h w1 dest) as Hf2.
  rewrite (reload_requests_observable r w w1 dest Ho1) in Hf2.
  pose proof (check_modification_closed h r w1 dest) as Hc2.
  destruct (check_modification h r w1 dest) as [logged' w2] eqn:Hdest.
  simpl in *. split_and!.
  - congruence.
  - congruence.
  - intros Hopen. rewrite Hf2, Hf1, Hopen. simpl.
    rewrite !orb_true_iff, !negb_true_iff, !bool_decide_eq_false. split.
    + intros [[?|Hreq]|Hreq]; [by left|right..].
      * exists src. split; [left|done].
      * exists dest. split; [right; left|done].
    + intros [?|(f & [->|Hf]%elem_of_cons & Hreq)];
        [by left; left|by left; right|].
      apply list_elem_of_singleton in Hf as ->. by right.
  - intros Hclosed.
    pose proof (check_modification_closed h r w src Hclosed) as Hc1.
    rewrite Hsrc in Hc1. injection Hc1 as -> ->.
    specialize (Hc2 Hclosed). by injection Hc2 as -> ->.
Qed.

(** ** From the loaded modules to a reload *)

Lemma find_observable_paths_covers_module (h : Host) (extra : list string)
    (fn : string) :
  Module (Some fn) ∈ sys_modules h →
  ∃ d, d ∈ _find_observable_paths h extra
       ∧ covers d (dirname (path_abspath h fn)).
Proof.
  intros Hfn. unfold _find_observable_paths.
  match goal with |- ∃ d, d ∈ _find_common_roots ?l ∧ _ => set (rv := l) end.
  assert (dirname (path_abspath h fn) ∈ rv) as Hin.
  { unfold rv. apply elem_of_app. right.
    apply list_elem_of_In, in_flat_map. exists (Module (Some fn)).
    split; [by apply list_elem_of_In|left; done]. }
  destruct (covered_by_top rv _ Hin) as (d & Hd & Htop & Hcov).
  exists d. split; [|done]. apply elem_of_find_common_roots. by right.
Qed.

(** X22: after a tick of the Event Detector that neither exits nor finds
    the loop closed, a notification about the file of any loaded module,
    given by its absolute path and ending in ".py", ".pyc" or ".pyo",
    raises the reload flag: the directory of every loaded module lies
    under an observed root. *)
Theorem X22_loaded_module_change_is_noticed (h : Host) (r : Reloader)
    (w : Watchdog) (fn : string) :
  should_reload w = false → loop_closed h = false →
  Module (Some fn) ∈ sys_modules h → path_abspath h fn = fn →
  Str.endswith fn ".py" = true ∨ Str.endswith fn ".pyc" = true
  ∨ Str.endswith fn ".pyo" = true →
  let w' := (Watchdog_run h r w).1.2 in
  startswith_any (dirname fn) (observable_paths w') = true
  ∧ should_reload (check_modification h r w' fn).2 = true.
Proof.
  intros Hflag Hopen Hfn Habs Hext w'.
  assert (observable_paths w' = _find_observable_paths h (extra_files r))
    as Hobs.
  { unfold w', Watchdog_run.
    pose proof (Watchdog_run_on_full r h w
                  (_find_observable_paths h (extra_files r)) Hflag Hopen)
      as Hfull.
    destruct (Watchdog_run_on h r w _) as [[calls w1] o].
    by destruct Hfull as (_ & _ & _ & ? & _). }
  assert (startswith_any (dirname fn) (observable_paths w') = true) as Hunder.
  { destruct (find_observable_paths_covers_module h (extra_files r) fn Hfn)
      as (d & Hd & Hcov).
    rewrite Habs in Hcov. rewrite Hobs.
    eapply startswith_any_elem_of; [exact Hd|]. by apply covers_startswith. }
  split; [done|].
  rewrite check_modification_flag, Hopen. simpl.
  apply orb_true_iff. right. apply negb_true_iff, bool_decide_eq_false.
  unfold reload_requests. rewrite Hunder.
  destruct (Str.endswith fn ".pyc" || Str.endswith fn ".pyo") eqn:Hcompiled;
    [by destruct (bool_decide _)|].
  apply orb_false_iff in Hcompiled as [Hc Ho].
  destruct Hext as [->|[?|?]]; [|congruence..].
  by destruct (bool_decide _).
Qed.

Lemma X22_loaded_module_change_is_noticed_witness :
  let r := Reloader_init demo_host [] Omitted in
  let w' := (Watchdog_run demo_host r Watchdog_init).1.2 in
  Module (Some "/srv/app/util.pyc") ∈ sys_modules demo_host
  ∧ startswith_any (dirname "/srv/app/util.pyc") (observable_paths w') = true
  ∧ should_reload (check_modification demo_host r w' "/srv/app/util.pyc").2
    = true.
Proof.
  intros r w'.
  assert (Module (Some "/srv/app/util.pyc") ∈ sys_modules demo_host) as Hin
    by (right; left).
  split; [exact Hin|].
  apply (X22_loaded_module_change_is_noticed demo_host r Watchdog_init
           "/srv/app/util.pyc");
    [reflexivity|reflexivity|exact Hin|reflexivity|].
  right. left. reflexivity.
Defined.

(** ** Entry point *)

Section entry_more.
Implicit Types (h : Host) (children : list Z) (name : string).

Lemma Watchdog_run_fresh_outcome h r :
  (Watchdog_run h r Watchdog_init).2 = sleep h r.
Proof.
  unfold Watchdog_run, Watchdog_run_on. cbn [should_reload Watchdog_init].
  destruct (loop_closed h) eqn:Hclosed.
  - unfold sleep. by rewrite Hclosed.
  - destruct (register h _ _ _) as [[calls table] td].
    by destruct (unregister _ table).
Qed.

Lemma StatReloader_run_fresh_outcome h r :
  st_outcome (StatReloader_run h r ∅) = sleep h r.
Proof.
  set (files := _iter_module_files h ++ extra_files r).
  pose proof (StatReloader_run_scan h r ∅) as Hscan. simpl in Hscan.
  fold files in Hscan.
  destruct (st_trigger (StatReloader_run h r ∅)) as [g|] eqn:Hhit.
  - exfalso. pose proof (scan_lookup h files ∅ g) as Hlook.
    rewrite Hscan in Hlook. simpl in Hlook.
    apply scan_hit in Hscan
      as (pre & post & _ & _ & _ & old_time & mtime & Hold & Hstat & Hlt).
    rewrite lookup_empty in Hlook.
    destruct Hlook as [?|[_ Hnew]]; [congruence|].
    assert (old_time = mtime) by congruence. lia.
  - unfold StatReloader_run in *. fold files in Hhit |- *.
    destruct (scan h files ∅) as [[seen m] [g|]]; [|done].
    by destruct (log_reload h g).
Qed.

End entry_more.



(** X2: in the supervised child (the marker variable is "true") [start]
    with a registered strategy name spawns nothing and runs the
    detector's first tick, which never exits: it ends by scheduling the
    next tick after the effective interval, or does nothing more when the
    loop is closed. *)
Theorem X2_start_as_child (h : Host) (children : list Z) (name : string)
    (arg : interval_arg) (cls : reloader_class) :
  reloaders h !! name = Some cls →
  os_environ h !! PULSAR_RUN_MAIN = Some "true" →
  let reloader :=
    Reloader_init h [] (match arg with Omitted => PyNone | v => v end) in
  start h children name arg
  = ({| constructed := [cls]; spawned := [] |}, ChildRan (sleep h reloader)).
Proof.
  intros Hcls Hmarker reloader. unfold start. rewrite Hcls.
  rewrite bool_decide_eq_true_2 by done. fold reloader.
  destruct cls.
  - by rewrite StatReloader_run_fresh_outcome.
  - by rewrite Watchdog_run_fresh_outcome.
Qed.

Lemma X2_start_as_child_witness :
  reloaders child_host !! "stat" = Some StatReloader
  ∧ start child_host [] "stat" (Seconds 2)
    = ({| constructed := [StatReloader]; spawned := [] |},
       ChildRan (sleep child_host (Reloader_init child_host [] (Seconds 2)))).
Proof.
  split; [by vm_compute|].
  apply (X2_start_as_child child_host [] "stat" (Seconds 2) StatReloader);
    by vm_compute.
Defined.

(** ** Common-Root Reducer: nesting of directories *)

Section nesting.
Implicit Types (paths : list string) (a p d s : string).

Lemma split_app_sep c (s1 s2 : string) :
  Str.split c (s1 +:+ String c s2) = Str.split c s1 ++ Str.split c s2.
Proof.
  induction s1 as [|b s1 IH].
  - change ("" +:+ String c s2) with (String c s2).
    cbn [Str.split]. by rewrite Ascii.eqb_refl.
  - rewrite append_cons. cbn [Str.split]. rewrite IH.
    destruct (Ascii.eqb b c); [done|].
    pose proof (split_not_nil c s1) as Hnil.
    by destruct (Str.split c s1).
Qed.

(** The chunk sequence of [a] is a proper prefix of that of [p] exactly
    when [p] starts with [a] followed by the separator. *)
Lemma nested_under_below a p : nested_under a p ↔ below a p.
Proof.
  unfold nested_under, below, covers. rewrite startswith_app. split.
  - intros [[more Hmore] Hne].
    destruct more as [|q more].
    { destruct Hne. apply (split_inj Str.sep).
      by rewrite (right_id_L [] (++)) in Hmore. }
    exists (Str.join Str.sep (q :: more)).
    rewrite string_app_assoc.
    transitivity (Str.join Str.sep (chunks p)); [symmetry; apply join_split|].
    rewrite Hmore, join_app by apply split_not_nil.
    unfold chunks. by rewrite join_split.
  - intros [rest ->]. rewrite string_app_assoc.
    change ("/" +:+ rest) with (String Str.sep rest). split.
    + unfold chunks. rewrite split_app_sep. by eexists.
    + intros Heq. apply (f_equal String.length) in Heq.
      rewrite length_append in Heq. simpl in Heq. lia.
Qed.


End nesting.




(** X9: the roots [_find_observable_paths] returns cover every directory
    it collected, those of [sys.path], of the extra files and of the
    loaded modules; no returned root starts with another returned root
    followed by the separator, that is, none lies below another one
    other than the root directory "/". *)
Theorem X9_observable_paths_cover (h : Host) (extra : list string) :
  let roots := _find_observable_paths h extra in
  (∀ p, p ∈ sys_path h → ∃ d, d ∈ roots ∧ covers d (path_abspath h p))
  ∧ (∀ f, f ∈ extra →
          ∃ d, d ∈ roots ∧ covers d (dirname (path_abspath h f)))
  ∧ (∀ fn, Module (Some fn) ∈ sys_modules h →
           ∃ d, d ∈ roots ∧ covers d (dirname (path_abspath h fn)))
  ∧ (∀ d1 d2, d1 ∈ roots → d2 ∈ roots →
              Str.startswith d2 (d1 +:+ "/") = false).
Proof.
  intros roots. unfold _find_observable_paths in roots.
  set (rv := (path_abspath h <$> sys_path h)
             ++ ((λ filename, dirname (path_abspath h filename)) <$> extra)
             ++ flat_map (λ m, match m with
                               | Module (Some fn) => [dirname (path_abspath h fn)]
                               | _ => []
                               end) (sys_modules h)).
  assert (roots = _find_common_roots rv) as ->.
  { unfold roots, rv. by rewrite (assoc_L (++)). }
  assert (∀ x, x ∈ rv → ∃ d, d ∈ _find_common_roots rv ∧ covers d x) as Hcov.
  { intros x Hx. destruct (covered_by_top rv x Hx) as (d & Hd & Htop & Hcov).
    exists d. split; [|done]. apply elem_of_find_common_roots. by right. }
  split_and!.
  - intros p Hp. apply Hcov. unfold rv. apply elem_of_app. left.
    apply list_elem_of_fmap. by exists p.
  - intros f Hf. apply Hcov. unfold rv. apply elem_of_app. right.
    apply elem_of_app. left. apply list_elem_of_fmap. by exists f.
  - intros fn Hfn. apply Hcov. unfold rv. apply elem_of_app. right.
    apply elem_of_app. right. apply list_elem_of_In, in_flat_map.
    exists (Module (Some fn)). split; [by apply list_elem_of_In|left; done].
  - intros d1 d2 Hd1 Hd2.
    destruct (Str.startswith d2 (d1 +:+ "/")) eqn:Hstart; [exfalso|done].
    apply (nested_under_below d1 d2) in Hstart as Hnest.
    apply elem_of_find_common_roots in Hd1 as [[Hnil ->]|[Hd1 _]].
    + apply elem_of_find_common_roots in Hd2 as [[_ ->]|[Hd2 _]].
      * by destruct Hnest.
      * rewrite Hnil in Hd2. by apply elem_of_nil in Hd2.
    + apply elem_of_find_common_roots in Hd2 as [[Hnil _]|[_ Htop]].
      * rewrite Hnil in Hd1. by apply elem_of_nil in Hd1.
      * apply Htop. by exists d1.
Qed.
